(** * canvas.js: the bouncing-balls simulation

    A shallow embedding of the physics core of [src/canvas.js]: the [Ball]
    body, its integrator, the wall and ball-to-ball collision resolvers, the
    world [step] and the bounded population of balls.

    JavaScript numbers are kept abstract behind the interface [JSNum], which
    lists the operations the program applies to them.  The functions of the
    program are written once, over that interface.  Two instances follow:
    - [float_num], IEEE 754 binary64 (Rocq's primitive floats), the numbers
      the program runs on, used to evaluate the code on concrete inputs;
    - [R_num], the real numbers, the rounding-free reading in which the
      specification states its algebraic properties.
    Properties that only depend on the shape of the code are proved for every
    instance. *)

From Stdlib Require Import Floats.
From Stdlib Require Import Reals Lra List ZArith Bool Lia Sorted.
Import ListNotations.

(** ** Numbers *)

Class JSNum (F : Type) : Type := {
  ofZ   : Z -> F;            (* an integer literal *)
  add   : F -> F -> F;
  sub   : F -> F -> F;
  mul   : F -> F -> F;
  div   : F -> F -> F;
  neg   : F -> F;            (* unary minus *)
  ltb   : F -> F -> bool;    (* a < b *)
  seq   : F -> F -> bool;    (* a === b *)
  truthy: F -> bool;         (* ToBoolean: neither zero nor NaN *)
  Mabs  : F -> F;            (* Math.abs *)
  Mmin  : F -> F -> F;       (* Math.min *)
  Mmax  : F -> F -> F;       (* Math.max *)
  Msqrt : F -> F;            (* Math.sqrt *)
  Mexp  : F -> F;            (* Math.exp *)
  Mround: F -> F;            (* Math.round *)
  MPI   : F                  (* Math.PI *)
}.

Declare Scope js_scope.
Delimit Scope js_scope with js.
Infix "+" := add : js_scope.
Infix "-" := sub : js_scope.
Infix "*" := mul : js_scope.
Infix "/" := div : js_scope.
Notation "- x" := (neg x) : js_scope.
Infix "<?" := ltb : js_scope.
Notation "x >? y" := (ltb y x) : js_scope.
Infix "===" := seq (at level 70, no associativity) : js_scope.

(** A decimal literal [n / 10^k]: both parts are exact in binary64 for the
    literals of this program, so the correctly rounded quotient is the
    literal's value. *)
Definition dec {F} `{JSNum F} (n : Z) (d : Z) : F := div (ofZ n) (ofZ d).

(** *** The real numbers *)

Definition Rltb (x y : R) : bool := if Rlt_dec x y then true else false.
Definition Reqb (x y : R) : bool := if Req_dec_T x y then true else false.
Definition Rround (x : R) : R := IZR (Int_part (x + / 2)).

#[export] Instance R_num : JSNum R := {
  ofZ := IZR;
  add := Rplus; sub := Rminus; mul := Rmult; div := Rdiv; neg := Ropp;
  ltb := Rltb; seq := Reqb;
  truthy := fun x => negb (Reqb x 0%R);
  Mabs := Rabs; Mmin := Rmin; Mmax := Rmax;
  Msqrt := sqrt; Mexp := exp; Mround := Rround;
  MPI := PI
}.

(** *** IEEE 754 binary64 *)

Module F64.

Definition is_nan (x : float) : bool := negb (PrimFloat.eqb x x).

Definition is_neg_zero (x : float) : bool :=
    match PrimFloat.classify x with NZero => true | _ => false end.

(** Math.min: NaN if either argument is NaN, and -0 is below +0. *)
Definition min (x y : float) : float :=
    if is_nan x then x else if is_nan y then y
    else if PrimFloat.ltb x y then x
    else if PrimFloat.ltb y x then y
    else if is_neg_zero x then x else y.

Definition max (x y : float) : float :=
    if is_nan x then x else if is_nan y then y
    else if PrimFloat.ltb y x then x
    else if PrimFloat.ltb x y then y
    else if is_neg_zero x then y else x.

Definition ofZ (z : Z) : float :=
    match z with
    | Z0 => PrimFloat.zero
    | Zpos _ => PrimFloat.of_uint63 (Uint63.of_Z z)
    | Zneg _ => PrimFloat.opp (PrimFloat.of_uint63 (Uint63.of_Z (Z.opp z)))
    end.

Definition truthy (x : float) : bool :=
    negb (is_nan x || PrimFloat.eqb x PrimFloat.zero).

End F64.

(** [Math.exp] and [Math.round] are no primitives of binary64 (the language
    leaves the precision of [Math.exp] to the engine): the instance takes
    them as arguments. *)
Definition float_num (fexp fround : float -> float) : JSNum float := {|
  ofZ := F64.ofZ;
  add := PrimFloat.add; sub := PrimFloat.sub; mul := PrimFloat.mul;
  div := PrimFloat.div; neg := PrimFloat.opp;
  ltb := PrimFloat.ltb; seq := PrimFloat.eqb;
  truthy := F64.truthy;
  Mabs := PrimFloat.abs; Mmin := F64.min; Mmax := F64.max;
  Msqrt := PrimFloat.sqrt; Mexp := fexp; Mround := fround;
  MPI := 0x1.921fb54442d18p+1%float
|}.

(** ** The program *)

Section Program.

Context {F : Type} `{JSNum F}.
Local Open Scope js_scope.

(** The arena, [state.w] and [state.h] in CSS pixels ([state.dpr] only
    scales the drawing). *)
Record State : Type := mkState { w : F; h : F }.

(** Physics parameters.  [G] is read from the style sheet when the page
    loads (1600 when it gives none), so it is an argument here. *)
Variable G : F.
Definition RESTITUTION : F := dec 84 100.
Definition FRICTION : F := dec 8 1000.
Definition AIR_DRAG : F := dec 8 10000.
Definition MAX_DT : F := ofZ 1 / ofZ 60.
Definition SUBSTEPS : nat := 1.
Definition SUBSTEPS_num : F := ofZ (Z.of_nat SUBSTEPS).

(** *** Circle body *)

Record Ball : Type := mkBall {
  px : F; py : F; vx : F; vy : F; r : F; m : F
}.

(** Assignment to one field of a body. *)
Definition set_px (b : Ball) (v : F) : Ball :=
  mkBall v (py b) (vx b) (vy b) (r b) (m b).
Definition set_py (b : Ball) (v : F) : Ball :=
  mkBall (px b) v (vx b) (vy b) (r b) (m b).
Definition set_vx (b : Ball) (v : F) : Ball :=
  mkBall (px b) (py b) v (vy b) (r b) (m b).
Definition set_vy (b : Ball) (v : F) : Ball :=
  mkBall (px b) (py b) (vx b) v (r b) (m b).

(** [new Ball(x, y, r)] *)
Definition newBall (x y r0 : F) : Ball :=
  mkBall x y (ofZ 0) (ofZ 0) r0 (MPI * r0 * r0).

(** [Ball.integrate(dt)], one assignment per line of the method. *)
Definition integrate (dt : F) (b : Ball) : Ball :=
  let b := set_vy b (vy b + G * dt) in
  let drag := Mexp (- AIR_DRAG * dt * ofZ 1000) in
  let b := set_vx b (vx b * drag) in
  let b := set_vy b (vy b * drag) in
  let b := set_px b (px b + vx b * dt) in
  let b := set_py b (py b + vy b * dt) in
  b.

(** *** Collision: ball against the walls *)

(** [collideWalls(b)], the four [if] statements in the order of the source;
    [st] is the global [state]. *)
Definition collideWalls (st : State) (b : Ball) : Ball :=
  let b :=
    if px b - r b <? ofZ 0
    then let b := set_px b (r b) in set_vx b (- vx b * RESTITUTION)
    else b in
  let b :=
    if px b + r b >? w st
    then let b := set_px b (w st - r b) in set_vx b (- vx b * RESTITUTION)
    else b in
  let b :=
    if py b - r b <? ofZ 0
    then let b := set_py b (r b) in set_vy b (- vy b * RESTITUTION)
    else b in
  if py b + r b >? h st
  then
    let b := set_py b (h st - r b) in
    let b := set_vy b (- vy b * RESTITUTION) in
    let onGround :=
      (Mabs (py b + r b - h st) <? dec 5 10) && (Mabs (vy b) <? ofZ 50) in
    if onGround
    then
      let b := set_vx b (vx b * (ofZ 1 - FRICTION)) in
      if Mabs (vx b) <? ofZ 2 then set_vx b (ofZ 0) else b
    else b
  else b.

(** *** Collision: ball against ball (impulse) *)

(** [collideBalls(a, b)] mutates both arguments; here it returns the pair
    of the two bodies as the call leaves them. *)
Definition collideBalls (a b : Ball) : Ball * Ball :=
  let dx := px b - px a in
  let dy := py b - py a in
  let dist2 := dx * dx + dy * dy in
  let radii := r a + r b in
  if (dist2 === ofZ 0) || (dist2 >? radii * radii) then (a, b) else
  let dist := Msqrt dist2 in
  let nx := if truthy dist then dx / dist else ofZ 1 in
  let ny := if truthy dist then dy / dist else ofZ 0 in
  let penetration := radii - dist in
  let totalMass := m a + m b in
  let corrA := penetration * (m b / totalMass) in
  let corrB := penetration * (m a / totalMass) in
  let a := set_px a (px a - nx * corrA) in
  let a := set_py a (py a - ny * corrA) in
  let b := set_px b (px b + nx * corrB) in
  let b := set_py b (py b + ny * corrB) in
  let rvx := vx b - vx a in
  let rvy := vy b - vy a in
  let velAlongNormal := rvx * nx + rvy * ny in
  if velAlongNormal >? ofZ 0 then (a, b) else
  let e := RESTITUTION in
  let j := - (ofZ 1 + e) * velAlongNormal / (ofZ 1 / m a + ofZ 1 / m b) in
  let impX := j * nx in
  let impY := j * ny in
  let a := set_vx a (vx a - impX / m a) in
  let a := set_vy a (vy a - impY / m a) in
  let b := set_vx b (vx b + impX / m b) in
  let b := set_vy b (vy b + impY / m b) in
  let tx := - ny in
  let ty := nx in
  let vTan := rvx * tx + rvy * ty in
  let jt := - vTan / (ofZ 1 / m a + ofZ 1 / m b) in
  let mu := dec 2 100 in
  let jtClamped := Mmin (mu * Mabs j) (Mmax (- mu * Mabs j) jt) in
  let a := set_vx a (vx a - (jtClamped * tx) / m a) in
  let a := set_vy a (vy a - (jtClamped * ty) / m a) in
  let b := set_vx b (vx b + (jtClamped * tx) / m b) in
  let b := set_vy b (vy b + (jtClamped * ty) / m b) in
  (a, b).

(** *** World step *)

(** [balls[i] = x] for an index inside the array. *)
Fixpoint setAt (i : nat) (x : Ball) (balls : list Ball) : list Ball :=
  match balls, i with
  | [], _ => []
  | _ :: t, O => x :: t
  | y :: t, S i => y :: setAt i x t
  end.

(** [collideBalls(balls[i], balls[j])]: the two objects are updated in
    place; [i < j] in every call, so they are distinct. *)
Definition collideAt (i j : nat) (balls : list Ball) : list Ball :=
  match nth_error balls i, nth_error balls j with
  | Some a, Some b =>
      let (a, b) := collideBalls a b in setAt j b (setAt i a balls)
  | _, _ => balls
  end.

(** The inner loop, [n] more values of [j] starting from [j]. *)
Fixpoint collideFrom (i j n : nat) (balls : list Ball) : list Ball :=
  match n with
  | O => balls
  | S n => collideFrom i (S j) n (collideAt i j balls)
  end.

(** The outer loop, [n] more values of [i] starting from [i]. *)
Fixpoint collideRows (i n : nat) (balls : list Ball) : list Ball :=
  match n with
  | O => balls
  | S n =>
      collideRows (S i) n (collideFrom i (S i) (length balls - S i) balls)
  end.

Definition collideAll (balls : list Ball) : list Ball :=
  collideRows 0 (length balls) balls.

Definition substep (st : State) (subDt : F) (balls : list Ball) : list Ball :=
  let balls := map (integrate subDt) balls in
  let balls := map (collideWalls st) balls in
  collideAll balls.

Definition step (st : State) (dt : F) (balls : list Ball) : list Ball :=
  let subDt := Mmin MAX_DT dt / SUBSTEPS_num in
  Nat.iter SUBSTEPS (substep st subDt) balls.

(** *** Population *)

Definition INITIAL_BALLS : nat := 2.
Definition MAX_BALLS : nat := 4.

(** [rand(min, max)], with the value [u] drawn by [Math.random()]. *)
Definition rand (u min max : F) : F := u * (max - min) + min.

(** [balls.push(b); if (balls.length > MAX_BALLS) balls.shift();] *)
Definition pushBall {A : Type} (b : A) (balls : list A) : list A :=
  let balls := balls ++ [b] in
  if (MAX_BALLS <? length balls)%nat then tl balls else balls.

(** The ball built by [spawnRandomBall] from five random draws. *)
Definition randomBall (st : State) (u1 u2 u3 u4 u5 : F) : Ball :=
  let r := Mround (rand u1 (ofZ 72) (ofZ 94)) in
  let x := rand u2 (r + ofZ 8) (w st - r - ofZ 8) in
  let y := - r - rand u3 (ofZ 10) (ofZ 60) in
  let b := newBall x y r in
  let b := set_vx b (rand u4 (- ofZ 40) (ofZ 40)) in
  let b := set_vy b (rand u5 (- ofZ 20) (ofZ 10)) in
  b.

Definition spawnRandomBall (st : State) (u1 u2 u3 u4 u5 : F)
    (balls : list Ball) : list Ball :=
  pushBall (randomBall st u1 u2 u3 u4 u5) balls.

(** [dragStart], set by the mousedown handler. *)
Record Drag : Type := mkDrag { drag_t : F; drag_x : F; drag_y : F }.

(** The ball built by the mouseup handler: [ex], [ey] the canvas point of
    the event, [now] the clock, [dragStart] the pending drag if any. *)
Definition releasedBall (st : State) (ex ey now : F) (dragStart : option Drag)
    (u1 u2 u3 : F) : Ball :=
  let r := Mround (rand u1 (ofZ 72) (ofZ 94)) in
  let b := newBall ex ey r in
  let b :=
    match dragStart with
    | Some d =>
        let dt := Mmax (ofZ 16) (now - drag_t d) / ofZ 1000 in
        let b := set_vx b ((ex - drag_x d) / dt * dec 25 100) in
        set_vy b ((ey - drag_y d) / dt * dec 25 100)
    | None => b
    end in
  let b := set_py b (Mmin (py b) (h st - r - ofZ 1)) in
  let b := set_px b (px b + rand u2 (- dec 2 10) (dec 2 10)) in
  let b := set_py b (py b + rand u3 (- dec 2 10) (dec 2 10)) in
  b.

Definition mouseup (st : State) (ex ey now : F) (dragStart : option Drag)
    (u1 u2 u3 : F) (balls : list Ball) : list Ball * option Drag :=
  (pushBall (releasedBall st ex ey now dragStart u1 u2 u3) balls, None).

(** The dblclick handler, [balls.length = 0]. *)
Definition dblclick (balls : list Ball) : list Ball := [].

(** A spawn operation with the inputs it reads. *)
Inductive SpawnOp : Type :=
| Scheduled (u1 u2 u3 u4 u5 : F)
| PointerUp (ex ey now : F) (dragStart : option Drag) (u1 u2 u3 : F).

(** The body a spawn operation creates. *)
Definition spawned (st : State) (op : SpawnOp) : Ball :=
  match op with
  | Scheduled u1 u2 u3 u4 u5 => randomBall st u1 u2 u3 u4 u5
  | PointerUp ex ey now d u1 u2 u3 => releasedBall st ex ey now d u1 u2 u3
  end.

Definition spawn (st : State) (balls : list Ball) (op : SpawnOp) : list Ball :=
  match op with
  | Scheduled u1 u2 u3 u4 u5 => spawnRandomBall st u1 u2 u3 u4 u5 balls
  | PointerUp ex ey now d u1 u2 u3 =>
      fst (mouseup st ex ey now d u1 u2 u3 balls)
  end.

(** The population after a sequence of spawn operations. *)
Definition spawnAll (st : State) (ops : list SpawnOp) (balls : list Ball)
    : list Ball :=
  fold_left (spawn st) ops balls.

(** *** The stages of the two resolvers

    Each [if] statement of [collideWalls] as a function of its own, and the
    body of [collideBalls] cut where the source has its blank lines: the
    early exit, the normal, the positional correction, the impulses. *)

Definition wallLeft (b : Ball) : Ball :=
  if px b - r b <? ofZ 0
  then let b := set_px b (r b) in set_vx b (- vx b * RESTITUTION)
  else b.

Definition wallRight (st : State) (b : Ball) : Ball :=
  if px b + r b >? w st
  then let b := set_px b (w st - r b) in set_vx b (- vx b * RESTITUTION)
  else b.

Definition wallTop (b : Ball) : Ball :=
  if py b - r b <? ofZ 0
  then let b := set_py b (r b) in set_vy b (- vy b * RESTITUTION)
  else b.

(** The two assignments that open the floor branch. *)
Definition floorBounce (st : State) (b : Ball) : Ball :=
  let b := set_py b (h st - r b) in
  set_vy b (- vy b * RESTITUTION).

(** The test [onGround] of the floor branch. *)
Definition onGround (st : State) (b : Ball) : bool :=
  (Mabs (py b + r b - h st) <? dec 5 10) && (Mabs (vy b) <? ofZ 50).

(** The friction block guarded by [onGround]. *)
Definition groundFriction (b : Ball) : Ball :=
  let b := set_vx b (vx b * (ofZ 1 - FRICTION)) in
  if Mabs (vx b) <? ofZ 2 then set_vx b (ofZ 0) else b.

Definition wallBottom (st : State) (b : Ball) : Ball :=
  if py b + r b >? h st
  then
    let b := floorBounce st b in
    if onGround st b then groundFriction b else b
  else b.

(** [dist2 === 0 || dist2 > radii*radii] *)
Definition noContact (a b : Ball) : bool :=
  let dx := px b - px a in
  let dy := py b - py a in
  let dist2 := dx * dx + dy * dy in
  let radii := r a + r b in
  (dist2 === ofZ 0) || (dist2 >? radii * radii).

(** The collision normal [(nx, ny)]. *)
Definition normal (a b : Ball) : F * F :=
  let dx := px b - px a in
  let dy := py b - py a in
  let dist2 := dx * dx + dy * dy in
  let dist := Msqrt dist2 in
  (if truthy dist then dx / dist else ofZ 1,
   if truthy dist then dy / dist else ofZ 0).

(** The positional correction, given the normal. *)
Definition separate (nx ny : F) (a b : Ball) : Ball * Ball :=
  let dx := px b - px a in
  let dy := py b - py a in
  let dist2 := dx * dx + dy * dy in
  let radii := r a + r b in
  let dist := Msqrt dist2 in
  let penetration := radii - dist in
  let totalMass := m a + m b in
  let corrA := penetration * (m b / totalMass) in
  let corrB := penetration * (m a / totalMass) in
  let a := set_px a (px a - nx * corrA) in
  let a := set_py a (py a - ny * corrA) in
  let b := set_px b (px b + nx * corrB) in
  let b := set_py b (py b + ny * corrB) in
  (a, b).

(** The normal impulse and the clamped tangential impulse. *)
Definition exchange (nx ny : F) (a b : Ball) : Ball * Ball :=
  let rvx := vx b - vx a in
  let rvy := vy b - vy a in
  let velAlongNormal := rvx * nx + rvy * ny in
  if velAlongNormal >? ofZ 0 then (a, b) else
  let e := RESTITUTION in
  let j := - (ofZ 1 + e) * velAlongNormal / (ofZ 1 / m a + ofZ 1 / m b) in
  let impX := j * nx in
  let impY := j * ny in
  let a := set_vx a (vx a - impX / m a) in
  let a := set_vy a (vy a - impY / m a) in
  let b := set_vx b (vx b + impX / m b) in
  let b := set_vy b (vy b + impY / m b) in
  let tx := - ny in
  let ty := nx in
  let vTan := rvx * tx + rvy * ty in
  let jt := - vTan / (ofZ 1 / m a + ofZ 1 / m b) in
  let mu := dec 2 100 in
  let jtClamped := Mmin (mu * Mabs j) (Mmax (- mu * Mabs j) jt) in
  let a := set_vx a (vx a - (jtClamped * tx) / m a) in
  let a := set_vy a (vy a - (jtClamped * ty) / m a) in
  let b := set_vx b (vx b + (jtClamped * tx) / m b) in
  let b := set_vy b (vy b + (jtClamped * ty) / m b) in
  (a, b).

(** *** Vocabulary of the statements *)

(** The last [n] elements of a list. *)
Definition lastn {A : Type} (n : nat) (l : list A) : list A :=
  skipn (length l - n) l.

(** The squared distance of the centres and the sum of the radii, as
    [collideBalls] computes them. *)
Definition dist2 (a b : Ball) : F :=
  (px b - px a) * (px b - px a) + (py b - py a) * (py b - py a).
Definition radii (a b : Ball) : F := r a + r b.

(** The quantities [velAlongNormal], [j] and [jtClamped] of the impulse
    exchange, as functions of the normal and of the two bodies. *)
Definition velAlongNormal (nx ny : F) (a b : Ball) : F :=
  (vx b - vx a) * nx + (vy b - vy a) * ny.

Definition normalImpulse (nx ny : F) (a b : Ball) : F :=
  - (ofZ 1 + RESTITUTION) * velAlongNormal nx ny a b
    / (ofZ 1 / m a + ofZ 1 / m b).

Definition tangentImpulse (nx ny : F) (a b : Ball) : F :=
  let j := normalImpulse nx ny a b in
  let vTan := (vx b - vx a) * - ny + (vy b - vy a) * nx in
  let jt := - vTan / (ofZ 1 / m a + ofZ 1 / m b) in
  let mu := dec 2 100 in
  Mmin (mu * Mabs j) (Mmax (- mu * Mabs j) jt).

(** The sub-step [step] derives from the frame time, and the drag factor
    [integrate] derives from a sub-step. *)
Definition subDtOf (dt : F) : F := Mmin MAX_DT dt / SUBSTEPS_num.
Definition dragOf (s : F) : F := Mexp (- AIR_DRAG * s * ofZ 1000).

(** The two fields no function of the simulation assigns. *)
Definition shape (b : Ball) : F * F := (r b, m b).

End Program.

Arguments State F : clear implicits.
Arguments Ball F : clear implicits.
Arguments Drag F : clear implicits.
Arguments SpawnOp F : clear implicits.
Arguments lastn {A} n l.

(** A body lying on the floor of the arena, with no sideways speed and an
    upward speed of at most RESTITUTION * G * s (real model). *)
Definition grounded (G : R) (st : State R) (s : R) (b : Ball R) : Prop :=
  (vx b = 0 /\ py b = h st - r b /\ - (84 / 100 * (G * s)) <= vy b <= 0)%R.

(** *** Sample inputs (real model)

    An 800 x 600 arena; a ball of radius 80 at rest on its floor; a ball
    crossing the floor while it slides; a ball crossing the left wall; the
    two balls of the head-on scenario and a ball out of their reach. *)
Definition arena : State R := mkState 800%R 600%R.
Definition restingBall : Ball R := newBall 400%R 520%R 80%R.
Definition slidingBall : Ball R :=
  set_vy (set_vx (newBall 400%R 530%R 80%R) 10%R) 20%R.
Definition crossingBall : Ball R := set_vx (newBall 10%R 300%R 80%R) (-30)%R.
Definition leftBall : Ball R := set_vx (newBall 0%R 0%R 50%R) 50%R.
Definition rightBall : Ball R := set_vx (newBall 90%R 0%R 50%R) (-50)%R.
Definition farBall : Ball R := newBall 200%R 0%R 50%R.
Definition sampleOps : list (SpawnOp R) :=
  [Scheduled 0%R 0%R 0%R 0%R 0%R;
   PointerUp 100%R 100%R 50%R None 0%R 0%R 0%R;
   Scheduled (1 / 2)%R 0%R 0%R 0%R 0%R;
   PointerUp 300%R 200%R 90%R (Some (mkDrag 10%R 250%R 200%R)) 0%R 0%R 0%R;
   Scheduled (1 / 4)%R (1 / 4)%R 0%R 0%R 0%R;
   Scheduled (3 / 4)%R 0%R 0%R (1 / 2)%R 0%R].

(** ** The rest of the page *)

Section Page.

Context {F : Type} `{JSNum F}.
Local Open Scope js_scope.

(** [clamp(v, a, b)] *)
Definition clamp (v a b : F) : F := Mmin b (Mmax a v).

Definition MIN_SPAWN_MS : F := ofZ 4000.
Definition MAX_SPAWN_MS : F := ofZ 8000.

(** The delay [scheduleNextSpawn] passes to [setTimeout]. *)
Definition nextSpawnDelay (u : F) : F := rand u MIN_SPAWN_MS MAX_SPAWN_MS.

(** [canvasPointFromEvent(e)], with the bounding rectangle of the canvas. *)
Definition canvasPointFromEvent (clientX clientY left top : F) : F * F :=
  (clientX - left, clientY - top).

(** The globals of the script: [state] (its [dpr] kept apart from the
    arena), [balls], [dragStart] and [last]; the fields carry a prefix as
    the names are taken by variables of the statements. *)
Record World : Type := mkWorld {
  wState : State F;
  wDpr : F;
  wBalls : list (Ball F);
  wDragStart : option (Drag F);
  wLast : F
}.

(** [Math.max(1, window.devicePixelRatio || 1)]; the ratio is [None] where
    the browser does not define it. *)
Definition pixelRatio (ratio : option F) : F :=
  Mmax (ofZ 1)
       match ratio with
       | Some d => if truthy d then d else ofZ 1
       | None => ofZ 1
       end.

(** [resize()]: the arena takes the client size of the canvas.  The backing
    store and the transform of the drawing context are not modelled. *)
Definition resize (clientWidth clientHeight : F) (ratio : option F)
    (wd : World) : World :=
  mkWorld (mkState clientWidth clientHeight) (pixelRatio ratio)
          (wBalls wd) (wDragStart wd) (wLast wd).

(** [animate(now)], up to the drawing. *)
Definition animate (G : F) (now : F) (wd : World) : World :=
  let dt := Mmin (dec 33 1000) ((now - wLast wd) / ofZ 1000) in
  mkWorld (wState wd) (wDpr wd) (step G (wState wd) dt (wBalls wd))
          (wDragStart wd) now.

(** The mousedown handler. *)
Definition mousedown (now ex ey : F) (wd : World) : World :=
  mkWorld (wState wd) (wDpr wd) (wBalls wd) (Some (mkDrag now ex ey))
          (wLast wd).

(** The events the script listens to, with the values each handler reads:
    the clock, the pointer position on the canvas, the draws of
    [Math.random()]. *)
Inductive Event : Type :=
| Resize (clientWidth clientHeight : F) (ratio : option F)
| Frame (now : F)
| SpawnTimer (u1 u2 u3 u4 u5 : F)
| MouseDown (now ex ey : F)
| MouseUp (now ex ey : F) (u1 u2 u3 : F)
| DblClick.

Definition handle (G : F) (wd : World) (ev : Event) : World :=
  match ev with
  | Resize cw ch ratio => resize cw ch ratio wd
  | Frame now => animate G now wd
  | SpawnTimer u1 u2 u3 u4 u5 =>
      mkWorld (wState wd) (wDpr wd)
              (spawnRandomBall (wState wd) u1 u2 u3 u4 u5 (wBalls wd))
              (wDragStart wd) (wLast wd)
  | MouseDown now ex ey => mousedown now ex ey wd
  | MouseUp now ex ey u1 u2 u3 =>
      let (bs, d) :=
        mouseup (wState wd) ex ey now (wDragStart wd) u1 u2 u3 (wBalls wd) in
      mkWorld (wState wd) (wDpr wd) bs d (wLast wd)
  | DblClick => mkWorld (wState wd) (wDpr wd) (dblclick (wBalls wd))
                        (wDragStart wd) (wLast wd)
  end.

Definition run (G : F) (evs : list Event) (wd : World) : World :=
  fold_left (handle G) evs wd.

(** The events other than a mouse down. *)
Definition notMouseDown (ev : Event) : Prop :=
  match ev with
  | MouseDown _ _ _ => False
  | _ => True
  end.

(** [for (let i = 0; i < INITIAL_BALLS; i++) spawnRandomBall();] with
    [draw i] the five draws of the call number [i]. *)
Fixpoint spawnBatch (st : State F) (draw : nat -> F * F * F * F * F)
    (i n : nat) (bs : list (Ball F)) : list (Ball F) :=
  match n with
  | O => bs
  | S n =>
      let '(u1, u2, u3, u4, u5) := draw i in
      spawnBatch st draw (S i) n (spawnRandomBall st u1 u2 u3 u4 u5 bs)
  end.

(** The world when the script has run to its end: the first [resize()],
    the initial batch, [last = performance.now()], no drag pending. *)
Definition kickoff (clientWidth clientHeight : F) (ratio : option F)
    (draw : nat -> F * F * F * F * F) (now : F) : World :=
  let st := mkState clientWidth clientHeight in
  mkWorld st (pixelRatio ratio) (spawnBatch st draw 0 INITIAL_BALLS [])
          None now.

(** *** The pairs the collision loops visit *)

(** [(i, j), (i, j+1), ...], [n] of them. *)
Fixpoint pairsFrom (i j n : nat) : list (nat * nat) :=
  match n with
  | O => []
  | S n => (i, j) :: pairsFrom i (S j) n
  end.

(** The rows [i, i+1, ...], [n] of them, of an array of [len] bodies. *)
Fixpoint pairRows (len i n : nat) : list (nat * nat) :=
  match n with
  | O => []
  | S n => pairsFrom i (S i) (len - S i) ++ pairRows len (S i) n
  end.

Definition pairs (len : nat) : list (nat * nat) := pairRows len 0 len.

(** The order of the loops: [i] ascending, and [j] ascending within one
    value of [i]. *)
Definition pairLt (p q : nat * nat) : Prop :=
  (fst p < fst q)%nat \/ (fst p = fst q /\ (snd p < snd q)%nat).

Definition collidePairs (ps : list (nat * nat)) (bs : list (Ball F))
    : list (Ball F) :=
  fold_left (fun bs p => collideAt (fst p) (snd p) bs) ps bs.

(** *** Runs of several steps *)





(** *** Quantities of the statements *)

(** Momentum and mass-weighted position of a pair, per axis. *)
Definition momentumX (a b : Ball F) : F := m a * vx a + m b * vx b.
Definition momentumY (a b : Ball F) : F := m a * vy a + m b * vy b.
Definition weightedX (a b : Ball F) : F := m a * px a + m b * px b.
Definition weightedY (a b : Ball F) : F := m a * py a + m b * py b.

(** Twice the kinetic energy of a pair. *)
Definition energy2 (a b : Ball F) : F :=
  m a * (vx a * vx a + vy a * vy a) + m b * (vx b * vx b + vy b * vy b).

(** The body lies inside the arena, touching the walls at most. *)
Definition inside (st : State F) (b : Ball F) : bool :=
  negb (px b - r b <? ofZ 0) && negb (px b + r b >? w st) &&
  negb (py b - r b <? ofZ 0) && negb (py b + r b >? h st).

End Page.

Arguments World F : clear implicits.
Arguments Event F : clear implicits.

(** *** The navigation bar

    The second script of the page.  Of each [nav ul li] the model keeps
    whether its class list holds ["clicked"]; of the [.dropdown] element,
    which may be missing, whether its class list holds ["hide"]. *)

Record Nav : Type := mkNav {
  itemsNavBar : list bool;
  dropdown : option bool
}.

(** [clearClicked()] *)
Definition clearClicked (nv : Nav) : Nav :=
  mkNav (map (fun _ => false) (itemsNavBar nv)) (dropdown nv).

(** [li.classList.add("clicked")] for the item number [i]. *)
Fixpoint addClicked (i : nat) (items : list bool) : list bool :=
  match items, i with
  | [], _ => []
  | _ :: t, O => true :: t
  | c :: t, S i => c :: addClicked i t
  end.

(** [handleClicked(e)], [i] the number of [e.currentTarget]. *)
Definition handleClicked (i : nat) (nv : Nav) : Nav :=
  let wasActive := nth i (itemsNavBar nv) false in
  let nv := clearClicked nv in
  if negb wasActive
  then mkNav (addClicked i (itemsNavBar nv)) (dropdown nv)
  else nv.

(** The click listener of the document; [inNav] is
    [nav.contains(e.target)]. *)
Definition documentClick (inNav : bool) (nv : Nav) : Nav :=
  if negb inNav
  then
    let nv := clearClicked nv in
    mkNav (itemsNavBar nv) (option_map (fun _ => true) (dropdown nv))
  else nv.

(** The click listener of the last item: [dropdown?.classList.toggle]. *)
Definition toggleDropdown (nv : Nav) : Nav :=
  mkNav (itemsNavBar nv) (option_map negb (dropdown nv)).

(** The number of items that hold ["clicked"]. *)
Definition clickedCount (nv : Nav) : nat :=
  length (filter (fun c => c) (itemsNavBar nv)).

(** A body lying on the floor of the arena with an upward speed of at most
    RESTITUTION * G * s, whatever its sideways speed (real model). *)
Definition floored (G : R) (st : State R) (s : R) (b : Ball R) : Prop :=
  (py b = h st - r b /\ - (84 / 100 * (G * s)) <= vy b <= 0)%R.

(** A ball sliding on the floor of the arena at vx = 300. *)
Definition skiddingBall : Ball R := set_vx (newBall 400%R 520%R 80%R) 300%R.

(** A ball hovering 0.1 above the floor of the arena, and a ball on the
    floor to the left of the resting ball, overlapping it and moving
    towards it (real model). *)
Definition hoverBall : Ball R :=
  set_vy (set_vx (newBall 400%R (5199 / 10)%R 80%R) 10%R) 5%R.

(** *** More sample inputs (real model)

    A ball near the top left corner of the arena, a world holding it and
    the resting ball with the clock at 5, and a bar of three items of which
    the second is marked, with its dropdown hidden. *)
Definition cornerBall : Ball R := newBall 100%R 100%R 80%R.
Definition sampleWorld : World R :=
  mkWorld arena 1%R [restingBall; cornerBall] None 5%R.
Definition sampleEvents : list (Event R) :=
  [Frame 6%R; SpawnTimer 0%R 0%R 0%R 0%R 0%R; Resize 640%R 480%R None;
   DblClick].
Definition sampleNav : Nav := mkNav [false; true; false] (Some true).

(** Case analysis on the test of the first conditional of the goal. *)
Ltac case_if :=
  match goal with
  | |- context [if ?c then _ else _] => destruct c
  end.

(** ** Properties that hold in every model of the numbers *)

Section Generic.

Context {F : Type} `{JSNum F}.
Local Open Scope js_scope.
Variable G : F.

(** *** The resolvers, stage by stage *)

Lemma collideWalls_stages (st : State F) (b : Ball F) :
  collideWalls st b = wallBottom st (wallTop (wallRight st (wallLeft b))).
Proof. reflexivity. Qed.

Lemma collideBalls_stages (a b : Ball F) :
  collideBalls a b =
    if noContact a b then (a, b) else
    let (nx, ny) := normal a b in
    let (a1, b1) := separate nx ny a b in
    exchange nx ny a1 b1.
Proof.
  unfold collideBalls, noContact, normal, separate, exchange.
  repeat case_if; reflexivity.
Qed.

(** *** The population *)

Lemma lastn_suffix {A : Type} (n : nat) (l : list A) :
  exists evicted, l = evicted ++ lastn n l.
Proof.
  exists (firstn (length l - n) l). unfold lastn.
  now rewrite firstn_skipn.
Qed.

Lemma lastn_length {A : Type} (n : nat) (l : list A) :
  length (lastn n l) = Nat.min n (length l).
Proof. unfold lastn. rewrite length_skipn. lia. Qed.

Lemma lastn_app_l {A : Type} (n : nat) (l t : list A) :
  lastn n (lastn n l ++ t) = lastn n (l ++ t).
Proof.
  unfold lastn.
  set (k := (length l - n)%nat).
  assert (Hk : skipn k l ++ t = skipn k (l ++ t)).
  { rewrite skipn_app. replace (k - length l)%nat with 0%nat by lia.
    reflexivity. }
  rewrite Hk, skipn_skipn. f_equal.
  rewrite length_skipn, !length_app. lia.
Qed.

Lemma pushBall_lastn {A : Type} (b : A) (balls : list A) :
  (length balls <= MAX_BALLS)%nat ->
  pushBall b balls = lastn MAX_BALLS (balls ++ [b]).
Proof.
  intros Hlen. unfold pushBall, lastn.
  rewrite length_app. cbn [length].
  destruct (Nat.ltb_spec MAX_BALLS (length balls + 1)) as [Hgt | Hle].
  - replace (length balls + 1 - MAX_BALLS)%nat with 1%nat by lia.
    destruct (balls ++ [b]); reflexivity.
  - replace (length balls + 1 - MAX_BALLS)%nat with 0%nat by lia.
    reflexivity.
Qed.

Lemma pushBall_length {A : Type} (b : A) (balls : list A) :
  (length balls <= MAX_BALLS)%nat ->
  (length (pushBall b balls) <= MAX_BALLS)%nat.
Proof.
  intros Hlen. rewrite pushBall_lastn by assumption.
  rewrite lastn_length. lia.
Qed.

(** A spawn that finds the population full drops index 0 and nothing else. *)
Lemma pushBall_full {A : Type} (b : A) (balls : list A) :
  length balls = MAX_BALLS -> pushBall b balls = tl balls ++ [b].
Proof.
  intros Hlen. unfold pushBall. rewrite length_app, Hlen. cbn.
  destruct balls; [discriminate | reflexivity].
Qed.

(** A spawn that finds room keeps every body. *)
Lemma pushBall_room {A : Type} (b : A) (balls : list A) :
  (length balls < MAX_BALLS)%nat -> pushBall b balls = balls ++ [b].
Proof.
  intros Hlen. unfold pushBall. rewrite length_app. cbn [length].
  destruct (Nat.ltb_spec MAX_BALLS (length balls + 1)); [lia | reflexivity].
Qed.

Lemma spawn_pushBall (st : State F) (balls : list (Ball F)) (op : SpawnOp F) :
  spawn st balls op = pushBall (spawned st op) balls.
Proof. destruct op; reflexivity. Qed.

Lemma spawnAll_lastn (st : State F) (ops : list (SpawnOp F)) :
  forall balls : list (Ball F),
    (length balls <= MAX_BALLS)%nat ->
    spawnAll st ops balls = lastn MAX_BALLS (balls ++ map (spawned st) ops).
Proof.
  unfold spawnAll.
  induction ops as [| op ops IH]; intros balls Hlen.
  - cbn. rewrite app_nil_r. unfold lastn.
    replace (length balls - MAX_BALLS)%nat with 0%nat by lia. reflexivity.
  - cbn [fold_left map].
    rewrite spawn_pushBall, IH by (apply pushBall_length; exact Hlen).
    rewrite pushBall_lastn by exact Hlen.
    rewrite lastn_app_l, <- app_assoc. reflexivity.
Qed.

(** C1. Starting from a population within the bound (the page starts from
    the empty one), after any sequence of spawn operations, scheduled or
    pointer-up: the population has at most MAX_BALLS = 4 bodies; it is the
    last MAX_BALLS bodies of the spawn sequence, so a suffix of it; and the
    next spawn, when the population is full, removes the body at index 0 and
    only that one, and removes nothing when there is room. *)
Theorem population_bound (st : State F) (ops : list (SpawnOp F))
    (balls : list (Ball F)) :
  (length balls <= MAX_BALLS)%nat ->
  let history := balls ++ map (spawned st) ops in
  let balls' := spawnAll st ops balls in
  MAX_BALLS = 4%nat /\
  (length balls' <= MAX_BALLS)%nat /\
  balls' = lastn MAX_BALLS history /\
  (exists evicted, history = evicted ++ balls') /\
  (forall op, length balls' = MAX_BALLS ->
     spawn st balls' op = tl balls' ++ [spawned st op]) /\
  (forall op, (length balls' < MAX_BALLS)%nat ->
     spawn st balls' op = balls' ++ [spawned st op]).
Proof.
  intros Hlen history balls'.
  assert (Heq : balls' = lastn MAX_BALLS history)
    by (apply spawnAll_lastn; exact Hlen).
  split; [reflexivity |].
  split; [rewrite Heq, lastn_length; lia |].
  split; [exact Heq |].
  split; [rewrite Heq; apply lastn_suffix |].
  split; intros op Hfull; rewrite spawn_pushBall.
  - now apply pushBall_full.
  - now apply pushBall_room.
Qed.

(** *** The integrator *)

(** C2. [integrate] adds gravity times dt to vy, then scales vx and vy by
    the drag factor exp(-AIR_DRAG * dt * 1000), then advances px and py by
    the scaled velocities times dt; radius and mass are kept.  It holds for
    every dt and in every model of the numbers. *)
Theorem integrate_spec (dt : F) (b : Ball F) :
  let drag := Mexp (- AIR_DRAG * dt * ofZ 1000) in
  let vx' := vx b * drag in
  let vy' := (vy b + G * dt) * drag in
  integrate G dt b =
    mkBall (px b + vx' * dt) (py b + vy' * dt) vx' vy' (r b) (m b).
Proof.
  intros drag vx' vy'. unfold integrate.
  destruct b as [x y u v rad mass]. cbn.
  reflexivity.
Qed.

(** *** The floor *)

(** The friction block sits inside the floor branch: a body that does not
    cross the floor is left alone by the fourth check. *)
Lemma wallBottom_idle (st : State F) (b : Ball F) :
  (py b + r b >? h st) = false -> wallBottom st b = b.
Proof. intros Hno. unfold wallBottom. now rewrite Hno. Qed.

Lemma wallBottom_fired (st : State F) (b : Ball F) :
  (py b + r b >? h st) = true ->
  wallBottom st b =
    (if onGround st (floorBounce st b)
     then groundFriction (floorBounce st b) else floorBounce st b).
Proof. intros Hyes. unfold wallBottom. now rewrite Hyes. Qed.

(** C6, as the code has it.  The friction rule of [collideWalls] lives
    inside the floor branch.  With [b] the body when the floor check runs:
    if the check fires (py + r > h), the body [b1] left by the floor
    resolution (y clamped, vy reflected) is tested, and if
    |py + r - h| < 0.5 and |vy| < 50 then vx is multiplied by 1 - FRICTION,
    and set to 0 when the product is below 2 in absolute value, nothing
    else differing from [b1]; if the test fails the result is [b1].  If the
    check does not fire the body is returned as it is, however close to the
    floor and however slow: it is not damped. *)
Theorem ground_friction (st : State F) (b0 : Ball F) :
  let b := wallTop (wallRight st (wallLeft b0)) in
  let b1 := floorBounce st b in
  let vx1 := vx b * (ofZ 1 - FRICTION) in
  ((py b + r b >? h st) = true ->
   ((Mabs (py b1 + r b1 - h st) <? dec 5 10) = true ->
    (Mabs (vy b1) <? ofZ 50) = true ->
    collideWalls st b0 =
      set_vx b1 (if Mabs vx1 <? ofZ 2 then ofZ 0 else vx1)) /\
   ((Mabs (py b1 + r b1 - h st) <? dec 5 10) = false \/
    (Mabs (vy b1) <? ofZ 50) = false ->
    collideWalls st b0 = b1)) /\
  ((py b + r b >? h st) = false -> collideWalls st b0 = b).
Proof.
  intros b b1 vx1. rewrite collideWalls_stages. fold b.
  split.
  - intros Hfloor.
    rewrite wallBottom_fired by exact Hfloor. fold b1.
    unfold onGround. split.
    + intros Hpos Hvel. rewrite Hpos, Hvel. cbn [andb].
      unfold groundFriction.
      change (vx b1) with (vx b). fold vx1.
      change (vx (set_vx b1 vx1)) with vx1.
      destruct (Mabs vx1 <? ofZ 2); reflexivity.
    + intros [Hpos | Hvel].
      * rewrite Hpos. reflexivity.
      * rewrite Hvel, andb_false_r. reflexivity.
  - intros Hidle. apply wallBottom_idle. exact Hidle.
Qed.

(** *** The early exit of the pair resolver *)

(** C5. [collideBalls(a, b)] returns with both bodies as they were when the
    squared distance of the centers is zero ([===]) or above the squared
    sum of the radii.  The function is total, so neither case fails. *)
Theorem collideBalls_no_contact (a b : Ball F) :
  let dx := px b - px a in
  let dy := py b - py a in
  let dist2 := dx * dx + dy * dy in
  let radii := r a + r b in
  (dist2 === ofZ 0) = true \/ (dist2 >? radii * radii) = true ->
  collideBalls a b = (a, b).
Proof.
  intros dx dy dist2 radii Hexit.
  rewrite collideBalls_stages. unfold noContact. fold dx dy dist2 radii.
  destruct Hexit as [Hzero | Hfar].
  - rewrite Hzero. reflexivity.
  - rewrite Hfar, orb_true_r. reflexivity.
Qed.

(** *** The impulse exchange, in closed form *)

Lemma exchange_unfold (nx ny : F) (a b : Ball F) :
  exchange nx ny a b =
    if velAlongNormal nx ny a b >? ofZ 0 then (a, b) else
    let j := normalImpulse nx ny a b in
    let jt := tangentImpulse nx ny a b in
    (mkBall (px a) (py a)
       (vx a - j * nx / m a - jt * - ny / m a)
       (vy a - j * ny / m a - jt * nx / m a) (r a) (m a),
     mkBall (px b) (py b)
       (vx b + j * nx / m b + jt * - ny / m b)
       (vy b + j * ny / m b + jt * nx / m b) (r b) (m b)).
Proof.
  unfold exchange. fold (velAlongNormal nx ny a b).
  destruct (velAlongNormal nx ny a b >? ofZ 0); reflexivity.
Qed.

(** *** Radius and mass *)

Lemma integrate_shape (dt : F) (b : Ball F) :
  shape (integrate G dt b) = shape b.
Proof. reflexivity. Qed.

Lemma collideWalls_shape (st : State F) (b : Ball F) :
  shape (collideWalls st b) = shape b.
Proof.
  rewrite collideWalls_stages.
  unfold wallBottom, groundFriction, wallTop, wallRight, wallLeft.
  repeat match goal with
         | |- context [if ?c then _ else _] => destruct c
         end; reflexivity.
Qed.

Lemma separate_shape (nx ny : F) (a b : Ball F) :
  shape (fst (separate nx ny a b)) = shape a /\
  shape (snd (separate nx ny a b)) = shape b.
Proof. split; reflexivity. Qed.

Lemma exchange_shape (nx ny : F) (a b : Ball F) :
  shape (fst (exchange nx ny a b)) = shape a /\
  shape (snd (exchange nx ny a b)) = shape b.
Proof.
  unfold exchange.
  destruct (_ >? _); split; reflexivity.
Qed.

Lemma collideBalls_shape (a b : Ball F) :
  shape (fst (collideBalls a b)) = shape a /\
  shape (snd (collideBalls a b)) = shape b.
Proof.
  rewrite collideBalls_stages.
  destruct (noContact a b); [split; reflexivity |].
  destruct (normal a b) as [nx ny].
  destruct (separate_shape nx ny a b) as [Ha Hb].
  destruct (separate nx ny a b) as [a1 b1]. cbn [fst snd] in Ha, Hb.
  destruct (exchange_shape nx ny a1 b1) as [Ha' Hb'].
  split; congruence.
Qed.

Lemma setAt_length (i : nat) (x : Ball F) (balls : list (Ball F)) :
  length (setAt i x balls) = length balls.
Proof.
  revert i; induction balls as [| y t IH]; intros [| i]; cbn; auto.
Qed.

Lemma setAt_shape (i : nat) (x : Ball F) (balls : list (Ball F)) :
  nth_error (map shape balls) i = Some (shape x) ->
  map shape (setAt i x balls) = map shape balls.
Proof.
  revert i; induction balls as [| y t IH]; intros [| i] Hi; cbn in *;
    try reflexivity.
  - congruence.
  - f_equal. now apply IH.
Qed.

Lemma collideAt_shape (i j : nat) (balls : list (Ball F)) :
  map shape (collideAt i j balls) = map shape balls.
Proof.
  unfold collideAt.
  destruct (nth_error balls i) as [a |] eqn:Hi; [| reflexivity].
  destruct (nth_error balls j) as [b |] eqn:Hj; [| reflexivity].
  destruct (collideBalls_shape a b) as [Ha Hb].
  destruct (collideBalls a b) as [a' b']. cbn [fst snd] in Ha, Hb.
  assert (Hfirst : map shape (setAt i a' balls) = map shape balls).
  { apply setAt_shape. rewrite nth_error_map, Hi, Ha. reflexivity. }
  rewrite setAt_shape; [exact Hfirst |].
  rewrite Hfirst, nth_error_map, Hj, Hb. reflexivity.
Qed.

Lemma collideFrom_shape (i n : nat) :
  forall (j : nat) (balls : list (Ball F)),
    map shape (collideFrom i j n balls) = map shape balls.
Proof.
  induction n as [| n IH]; intros j balls; cbn; [reflexivity |].
  now rewrite IH, collideAt_shape.
Qed.

Lemma collideRows_shape (n : nat) :
  forall (i : nat) (balls : list (Ball F)),
    map shape (collideRows i n balls) = map shape balls.
Proof.
  induction n as [| n IH]; intros i balls; cbn; [reflexivity |].
  now rewrite IH, collideFrom_shape.
Qed.

Lemma substep_shape (st : State F) (subDt : F) (balls : list (Ball F)) :
  map shape (substep G st subDt balls) = map shape balls.
Proof.
  unfold substep, collideAll.
  rewrite collideRows_shape, !map_map.
  apply map_ext. intros b.
  now rewrite collideWalls_shape, integrate_shape.
Qed.

Lemma step_shape (st : State F) (dt : F) (balls : list (Ball F)) :
  map shape (step G st dt balls) = map shape balls.
Proof.
  unfold step. generalize (Mmin MAX_DT dt / SUBSTEPS_num). intros subDt.
  induction SUBSTEPS as [| n IH]; cbn; [reflexivity |].
  now rewrite substep_shape.
Qed.

(** [step] keeps the number of bodies. *)
Lemma step_length (st : State F) (dt : F) (balls : list (Ball F)) :
  length (step G st dt balls) = length balls.
Proof.
  rewrite <- (length_map shape), step_shape. apply length_map.
Qed.

(** C10. The constructor sets the mass to Math.PI * r * r, the spawn
    operations leave it so, and [integrate], [collideWalls], [collideBalls]
    and [step] return every body with the radius and the mass it had. *)
Theorem mass_radius_frame :
  (forall x y r0 : F,
     r (newBall x y r0) = r0 /\ m (newBall x y r0) = MPI * r0 * r0) /\
  (forall (st : State F) (op : SpawnOp F),
     m (spawned st op) = MPI * r (spawned st op) * r (spawned st op)) /\
  (forall (dt : F) (b : Ball F),
     r (integrate G dt b) = r b /\ m (integrate G dt b) = m b) /\
  (forall (st : State F) (b : Ball F),
     r (collideWalls st b) = r b /\ m (collideWalls st b) = m b) /\
  (forall a b : Ball F,
     r (fst (collideBalls a b)) = r a /\ m (fst (collideBalls a b)) = m a /\
     r (snd (collideBalls a b)) = r b /\ m (snd (collideBalls a b)) = m b) /\
  (forall (st : State F) (dt : F) (balls : list (Ball F)),
     map r (step G st dt balls) = map r balls /\
     map m (step G st dt balls) = map m balls).
Proof.
  assert (Hsplit : forall b b' : Ball F,
             shape b' = shape b -> r b' = r b /\ m b' = m b).
  { intros b b' Hs. unfold shape in Hs. now inversion Hs. }
  repeat split.
  - destruct op as [u1 u2 u3 u4 u5 | ex ey now [d |] u1 u2 u3]; reflexivity.
  - apply (Hsplit b), collideWalls_shape.
  - apply (Hsplit b), collideWalls_shape.
  - apply (Hsplit a), collideBalls_shape.
  - apply (Hsplit a), collideBalls_shape.
  - apply (Hsplit b), collideBalls_shape.
  - apply (Hsplit b), collideBalls_shape.
  - pose proof (step_shape st dt balls) as Hs.
    apply (f_equal (map fst)) in Hs. now rewrite !map_map in Hs.
  - pose proof (step_shape st dt balls) as Hs.
    apply (f_equal (map snd)) in Hs. now rewrite !map_map in Hs.
Qed.

End Generic.

(** ** Properties over the real numbers *)

Section RealModel.

Local Open Scope R_scope.

Lemma Rltb_true (x y : R) : Rltb x y = true <-> x < y.
Proof. unfold Rltb. destruct (Rlt_dec x y); split; intros; congruence || assumption. Qed.

Lemma Rltb_false (x y : R) : Rltb x y = false <-> y <= x.
Proof.
  unfold Rltb. destruct (Rlt_dec x y); split; intros; try congruence; lra.
Qed.

Lemma Reqb_true (x y : R) : Reqb x y = true <-> x = y.
Proof. unfold Reqb. destruct (Req_dec_T x y); split; intros; congruence. Qed.

Lemma Reqb_false (x y : R) : Reqb x y = false <-> x <> y.
Proof. unfold Reqb. destruct (Req_dec_T x y); split; intros; congruence. Qed.

Lemma RESTITUTION_R : @RESTITUTION R _ = 84 / 100.
Proof. reflexivity. Qed.

Lemma FRICTION_R : @FRICTION R _ = 8 / 1000.
Proof. reflexivity. Qed.

End RealModel.

(** Reading the operations of the interface at [R]. *)
Ltac real_ops :=
  cbn [add sub mul div neg ltb seq truthy Mabs Mmin Mmax Msqrt Mexp MPI ofZ
       R_num dec] in *.

(** Case analysis on the comparisons of the goal. *)
Ltac real_cases :=
  repeat match goal with
         | |- context [Rltb ?x ?y] =>
             let Hc := fresh "Hc" in
             destruct (Rltb x y) eqn:Hc;
             [apply Rltb_true in Hc | apply Rltb_false in Hc]
         | |- context [Reqb ?x ?y] =>
             let Hc := fresh "Hc" in
             destruct (Reqb x y) eqn:Hc;
             [apply Reqb_true in Hc | apply Reqb_false in Hc]
         end.

Section Walls.

Local Open Scope R_scope.

Lemma Rabs_bounce (v : R) : Rabs (- v * (84 / 100)) <= Rabs v.
Proof.
  rewrite Rabs_mult, Rabs_Ropp, (Rabs_pos_eq (84 / 100)) by lra.
  pose proof (Rabs_pos v). lra.
Qed.

Lemma Rabs_friction (v : R) : Rabs (v * (1 - 8 / 1000)) <= Rabs v.
Proof.
  rewrite Rabs_mult, (Rabs_pos_eq (1 - 8 / 1000)) by lra.
  pose proof (Rabs_pos v). lra.
Qed.

Lemma wallLeft_speed (b : Ball R) : Rabs (vx (wallLeft b)) <= Rabs (vx b).
Proof.
  unfold wallLeft, RESTITUTION. real_ops.
  real_cases; cbn; [apply Rabs_bounce | lra].
Qed.

Lemma wallRight_speed (st : State R) (b : Ball R) :
  Rabs (vx (wallRight st b)) <= Rabs (vx b).
Proof.
  unfold wallRight, RESTITUTION. real_ops.
  real_cases; cbn; [apply Rabs_bounce | lra].
Qed.

Lemma wallTop_speed (b : Ball R) : Rabs (vy (wallTop b)) <= Rabs (vy b).
Proof.
  unfold wallTop, RESTITUTION. real_ops.
  real_cases; cbn; [apply Rabs_bounce | lra].
Qed.

Lemma wallBottom_vy (st : State R) (b : Ball R) :
  vy (wallBottom st b) =
    if Rltb (h st) (py b + r b) then - vy b * (84 / 100) else vy b.
Proof.
  unfold wallBottom, groundFriction, floorBounce, RESTITUTION. real_ops.
  destruct (Rltb (h st) (py b + r b)); [| reflexivity].
  destruct (onGround _ _); [| reflexivity].
  cbn. destruct (Rltb _ _); reflexivity.
Qed.

Lemma wallBottom_speed (st : State R) (b : Ball R) :
  Rabs (vy (wallBottom st b)) <= Rabs (vy b).
Proof.
  rewrite wallBottom_vy. real_cases; [apply Rabs_bounce | lra].
Qed.

(** The floor branch never speeds the body up sideways either. *)
Lemma wallBottom_side_speed (st : State R) (b : Ball R) :
  Rabs (vx (wallBottom st b)) <= Rabs (vx b).
Proof.
  unfold wallBottom, groundFriction, floorBounce, FRICTION. real_ops.
  destruct (Rltb (h st) (py b + r b)); [| lra].
  destruct (onGround _ _); [| cbn; lra].
  cbn. destruct (Rltb _ _); cbn.
  - rewrite Rabs_R0. apply Rabs_pos.
  - apply Rabs_friction.
Qed.

Lemma wall_vx_frame (st : State R) (b : Ball R) :
  vx (wallTop b) = vx b /\ vy (wallLeft b) = vy b /\
  vy (wallRight st b) = vy b.
Proof.
  unfold wallTop, wallLeft, wallRight.
  repeat split; match goal with |- context [if ?c then _ else _] => destruct c end;
    reflexivity.
Qed.

(** C3. Each of the four wall checks of [collideWalls], when it fires, puts
    the centre one radius from that wall and replaces the velocity across
    the wall by its opposite times RESTITUTION (0.84).  The speed across the
    wall after a check is at most the speed before it, and so is each
    component of the speed after the whole of [collideWalls]. *)
Theorem wall_bounce (st : State R) (b : Ball R) :
  collideWalls st b = wallBottom st (wallTop (wallRight st (wallLeft b))) /\
  (px b - r b < 0 ->
     px (wallLeft b) = r b /\ vx (wallLeft b) = - vx b * RESTITUTION) /\
  (px b + r b > w st ->
     px (wallRight st b) = w st - r b /\
     vx (wallRight st b) = - vx b * RESTITUTION) /\
  (py b - r b < 0 ->
     py (wallTop b) = r b /\ vy (wallTop b) = - vy b * RESTITUTION) /\
  (py b + r b > h st ->
     py (wallBottom st b) = h st - r b /\
     vy (wallBottom st b) = - vy b * RESTITUTION) /\
  RESTITUTION < 1 /\
  Rabs (vx (wallLeft b)) <= Rabs (vx b) /\
  Rabs (vx (wallRight st b)) <= Rabs (vx b) /\
  Rabs (vy (wallTop b)) <= Rabs (vy b) /\
  Rabs (vy (wallBottom st b)) <= Rabs (vy b) /\
  Rabs (vx (collideWalls st b)) <= Rabs (vx b) /\
  Rabs (vy (collideWalls st b)) <= Rabs (vy b).
Proof.
  repeat apply conj.
  - apply collideWalls_stages.
  - intros Hfire. unfold wallLeft. real_ops.
    apply Rltb_true in Hfire. rewrite Hfire. split; reflexivity.
  - intros Hfire. unfold wallRight. real_ops.
    apply Rltb_true in Hfire. rewrite Hfire. split; reflexivity.
  - intros Hfire. unfold wallTop. real_ops.
    apply Rltb_true in Hfire. rewrite Hfire. split; reflexivity.
  - intros Hfire. apply Rltb_true in Hfire. split.
    + unfold wallBottom, groundFriction, floorBounce. real_ops.
      rewrite Hfire. case_if; [| reflexivity].
      cbn. case_if; reflexivity.
    + rewrite wallBottom_vy, Hfire. reflexivity.
  - rewrite RESTITUTION_R. lra.
  - apply wallLeft_speed.
  - apply wallRight_speed.
  - apply wallTop_speed.
  - apply wallBottom_speed.
  - rewrite collideWalls_stages.
    eapply Rle_trans; [apply wallBottom_side_speed |].
    destruct (wall_vx_frame st (wallRight st (wallLeft b))) as [Htop _].
    rewrite Htop.
    eapply Rle_trans; [apply wallRight_speed | apply wallLeft_speed].
  - rewrite collideWalls_stages.
    eapply Rle_trans; [apply wallBottom_speed |].
    eapply Rle_trans; [apply wallTop_speed |].
    destruct (wall_vx_frame st (wallLeft b)) as (_ & _ & Hright).
    destruct (wall_vx_frame st b) as (_ & Hleft & _).
    rewrite Hright, Hleft. lra.
Qed.

End Walls.

Section Pairs.

Local Open Scope R_scope.

Lemma dist2_nonneg (a b : Ball R) : 0 <= dist2 a b.
Proof.
  unfold dist2. real_ops.
  pose proof (Rle_0_sqr (px b - px a)) as Hx.
  pose proof (Rle_0_sqr (py b - py a)) as Hy.
  unfold Rsqr in Hx, Hy. lra.
Qed.

Lemma noContact_R (a b : Ball R) :
  noContact a b = false <-> 0 < dist2 a b <= radii a b * radii a b.
Proof.
  pose proof (dist2_nonneg a b) as Hpos.
  unfold noContact, dist2, radii in *. real_ops.
  rewrite orb_false_iff, Reqb_false, Rltb_false. split; intros [H1 H2].
  - split; [| exact H2]. destruct Hpos as [Hlt | Heq]; [exact Hlt |].
    symmetry in Heq. contradiction.
  - split; [lra | exact H2].
Qed.

Lemma normal_R (a b : Ball R) :
  0 < dist2 a b ->
  normal a b =
    ((px b - px a) / sqrt (dist2 a b), (py b - py a) / sqrt (dist2 a b)).
Proof.
  intros Hpos. unfold normal. fold (dist2 a b). real_ops.
  assert (Hd : Reqb (sqrt (dist2 a b)) 0 = false).
  { apply Reqb_false. pose proof (sqrt_lt_R0 _ Hpos). lra. }
  rewrite Hd. reflexivity.
Qed.

Lemma normal_unit (a b : Ball R) :
  0 < dist2 a b ->
  let d := sqrt (dist2 a b) in
  (px b - px a) / d * ((px b - px a) / d) +
  (py b - py a) / d * ((py b - py a) / d) = 1.
Proof.
  intros Hpos d.
  set (dx := px b - px a). set (dy := py b - py a).
  assert (Hd : 0 < d) by (apply sqrt_lt_R0; exact Hpos).
  assert (Hdd : d * d = dx * dx + dy * dy)
    by exact (sqrt_sqrt _ (dist2_nonneg a b)).
  transitivity ((dx * dx + dy * dy) / (d * d)); [field; lra |].
  rewrite <- Hdd. field. lra.
Qed.

(** The impulses move no centre. *)
Lemma exchange_position (nx ny : R) (a b : Ball R) :
  px (fst (exchange nx ny a b)) = px a /\
  py (fst (exchange nx ny a b)) = py a /\
  px (snd (exchange nx ny a b)) = px b /\
  py (snd (exchange nx ny a b)) = py b.
Proof. unfold exchange. case_if; repeat split; reflexivity. Qed.

Lemma overlap_depth (a b : Ball R) :
  0 <= radii a b -> dist2 a b <= radii a b * radii a b ->
  0 <= radii a b - sqrt (dist2 a b).
Proof.
  intros Hrad Hle.
  pose proof (sqrt_le_1_alt _ _ Hle) as Hs.
  rewrite sqrt_square in Hs by exact Hrad. lra.
Qed.

Lemma share_le (p x y t : R) :
  0 <= p -> 0 < t -> x <= y -> p * x / t <= p * y / t.
Proof.
  intros Hp Ht Hxy. unfold Rdiv.
  apply Rmult_le_compat_r.
  - left. apply Rinv_0_lt_compat. exact Ht.
  - apply Rmult_le_compat_l; assumption.
Qed.

Lemma share_nonneg (p x t : R) : 0 <= p -> 0 <= x -> 0 < t -> 0 <= p * x / t.
Proof.
  intros Hp Hx Ht. unfold Rdiv.
  apply Rmult_le_pos; [apply Rmult_le_pos; assumption |].
  left. apply Rinv_0_lt_compat. exact Ht.
Qed.

(** C4. When [collideBalls(a, b)] finds the bodies in contact
    (0 < dist2 <= radii^2, d the distance, n = (dx/d, dy/d) the unit
    normal from a to b), the positional correction moves a by
    (radii - d) * m_b / (m_a + m_b) against n and b by
    (radii - d) * m_a / (m_a + m_b) along n and touches no other field, the
    impulses that follow move no centre, so these are the final positions;
    with positive masses the shares are not negative and the heavier body
    gets the smaller one. *)
Theorem depenetration (a b : Ball R) :
  let d := sqrt (dist2 a b) in
  let nx := (px b - px a) / d in
  let ny := (py b - py a) / d in
  let moveA := (radii a b - d) * m b / (m a + m b) in
  let moveB := (radii a b - d) * m a / (m a + m b) in
  let a1 := fst (separate nx ny a b) in
  let b1 := snd (separate nx ny a b) in
  0 < dist2 a b <= radii a b * radii a b ->
  (normal a b = (nx, ny) /\ nx * nx + ny * ny = 1) /\
  (a1 = set_py (set_px a (px a - nx * moveA)) (py a - ny * moveA) /\
   b1 = set_py (set_px b (px b + nx * moveB)) (py b + ny * moveB)) /\
  (vx a1 = vx a /\ vy a1 = vy a /\ vx b1 = vx b /\ vy b1 = vy b) /\
  collideBalls a b = exchange nx ny a1 b1 /\
  (px (fst (collideBalls a b)) = px a - nx * moveA /\
   py (fst (collideBalls a b)) = py a - ny * moveA /\
   px (snd (collideBalls a b)) = px b + nx * moveB /\
   py (snd (collideBalls a b)) = py b + ny * moveB) /\
  (0 <= radii a b -> 0 < m a -> 0 < m b ->
   0 <= moveA /\ 0 <= moveB /\
   (m b <= m a -> moveA <= moveB) /\ (m a <= m b -> moveB <= moveA)).
Proof.
  intros d nx ny moveA moveB a1 b1 Hcontact.
  assert (Hnormal : normal a b = (nx, ny))
    by (apply normal_R; apply Hcontact).
  assert (Ha1 : a1 = set_py (set_px a (px a - nx * moveA)) (py a - ny * moveA)).
  { subst a1 moveA. unfold separate, set_py, set_px, radii. cbn [fst].
    fold (dist2 a b). real_ops. fold d. cbn [px py vx vy r m].
    f_equal; unfold Rdiv; ring. }
  assert (Hb1 : b1 = set_py (set_px b (px b + nx * moveB)) (py b + ny * moveB)).
  { subst b1 moveB. unfold separate, set_py, set_px, radii. cbn [snd].
    fold (dist2 a b). real_ops. fold d. cbn [px py vx vy r m].
    f_equal; unfold Rdiv; ring. }
  assert (Hcall : collideBalls a b = exchange nx ny a1 b1).
  { rewrite collideBalls_stages.
    replace (noContact a b) with false
      by (symmetry; apply noContact_R; exact Hcontact).
    rewrite Hnormal. subst a1 b1.
    destruct (separate nx ny a b); reflexivity. }
  split; [split; [exact Hnormal | apply normal_unit; apply Hcontact] |].
  split; [split; assumption |].
  split; [rewrite Ha1, Hb1; repeat split; reflexivity |].
  split; [exact Hcall |].
  split.
  - rewrite Hcall.
    destruct (exchange_position nx ny a1 b1) as (Hax & Hay & Hbx & Hby).
    rewrite Hax, Hay, Hbx, Hby, Ha1, Hb1. repeat split; reflexivity.
  - intros Hrad Hma Hmb.
    assert (Hdepth : 0 <= radii a b - d)
      by (apply overlap_depth; [exact Hrad | apply Hcontact]).
    assert (Htot : 0 < m a + m b) by lra.
    subst moveA moveB.
    repeat split.
    + apply share_nonneg; lra.
    + apply share_nonneg; lra.
    + intros Hheavy. apply share_le; assumption.
    + intros Hheavy. apply share_le; assumption.
Qed.

(** *** Swapping the arguments *)

Lemma dist2_swap (a b : Ball R) : dist2 b a = dist2 a b.
Proof. unfold dist2. real_ops. ring. Qed.

Lemma radii_swap (a b : Ball R) : radii b a = radii a b.
Proof. unfold radii. real_ops. ring. Qed.

Lemma noContact_swap (a b : Ball R) : noContact b a = noContact a b.
Proof.
  unfold noContact. fold (dist2 a b) (dist2 b a) (radii a b) (radii b a).
  now rewrite dist2_swap, radii_swap.
Qed.

Lemma normal_swap (a b : Ball R) :
  0 < dist2 a b ->
  normal b a = (- fst (normal a b), - snd (normal a b)).
Proof.
  intros Hpos.
  rewrite (normal_R a b) by exact Hpos.
  rewrite (normal_R b a) by (rewrite dist2_swap; exact Hpos).
  rewrite dist2_swap. cbn [fst snd].
  assert (Hd : sqrt (dist2 a b) <> 0)
    by (pose proof (sqrt_lt_R0 _ Hpos); lra).
  f_equal; field; exact Hd.
Qed.

Lemma separate_swap (nx ny : R) (a b : Ball R) :
  separate (- nx) (- ny) b a =
    (snd (separate nx ny a b), fst (separate nx ny a b)).
Proof.
  unfold separate. fold (dist2 a b) (dist2 b a).
  rewrite dist2_swap. real_ops.
  replace (m b + m a) with (m a + m b) by ring.
  replace (r b + r a) with (r a + r b) by ring.
  unfold set_px, set_py. cbn [fst snd px py vx vy r m].
  f_equal; f_equal; ring.
Qed.

Lemma velAlongNormal_swap (nx ny : R) (a b : Ball R) :
  velAlongNormal (- nx) (- ny) b a = velAlongNormal nx ny a b.
Proof. unfold velAlongNormal. real_ops. ring. Qed.

Lemma normalImpulse_swap (nx ny : R) (a b : Ball R) :
  normalImpulse (- nx) (- ny) b a = normalImpulse nx ny a b.
Proof.
  unfold normalImpulse. rewrite velAlongNormal_swap. real_ops.
  replace (1 / m b + 1 / m a) with (1 / m a + 1 / m b) by ring.
  reflexivity.
Qed.

Lemma tangentImpulse_swap (nx ny : R) (a b : Ball R) :
  tangentImpulse (- nx) (- ny) b a = tangentImpulse nx ny a b.
Proof.
  unfold tangentImpulse. rewrite normalImpulse_swap. real_ops.
  replace (1 / m b + 1 / m a) with (1 / m a + 1 / m b) by ring.
  replace ((vx a - vx b) * - - ny + (vy a - vy b) * - nx)
    with ((vx b - vx a) * - ny + (vy b - vy a) * nx) by ring.
  reflexivity.
Qed.

Lemma exchange_swap (nx ny : R) (a b : Ball R) :
  exchange (- nx) (- ny) b a =
    (snd (exchange nx ny a b), fst (exchange nx ny a b)).
Proof.
  rewrite !exchange_unfold.
  rewrite velAlongNormal_swap, normalImpulse_swap, tangentImpulse_swap.
  case_if; cbn [fst snd]; [reflexivity |].
  real_ops. f_equal; f_equal; unfold Rdiv; ring.
Qed.

(** C7. [collideBalls(a, b)] and [collideBalls(b, a)], run from the same
    pair of states, leave each of the two bodies in the same final state. *)
Theorem collideBalls_symmetric (a b : Ball R) :
  collideBalls b a = (snd (collideBalls a b), fst (collideBalls a b)).
Proof.
  rewrite !collideBalls_stages, noContact_swap.
  destruct (noContact a b) eqn:Hguard; [reflexivity |].
  apply noContact_R in Hguard. destruct Hguard as [Hpos _].
  rewrite (normal_swap a b Hpos).
  destruct (normal a b) as [nx ny]. cbn [fst snd].
  rewrite separate_swap.
  destruct (separate nx ny a b) as [a1 b1]. cbn [fst snd].
  apply exchange_swap.
Qed.

End Pairs.

(** ** The head-on scenario *)

Section HeadOn.

Local Open Scope R_scope.

(** Two bodies of radius 50 and equal mass, centres 90 apart along x,
    closing at 100 along x. *)
Variables a b : Ball R.
Hypothesis Hra : r a = 50.
Hypothesis Hrb : r b = 50.
Hypothesis Hmass : m a = m b.
Hypothesis Hma : 0 < m a.
Hypothesis Hy : py b = py a.
Hypothesis Hx : px b - px a = 90.
Hypothesis Hvy : vy b = vy a.
Hypothesis Hvx : vx a - vx b = 100.

Lemma headOn_dist2 : dist2 a b = 90 * 90.
Proof. unfold dist2. real_ops. rewrite Hx, Hy. ring. Qed.

Lemma headOn_dist : sqrt (dist2 a b) = 90.
Proof. rewrite headOn_dist2. apply sqrt_square. lra. Qed.

Lemma headOn_contact : noContact a b = false.
Proof.
  apply noContact_R. rewrite headOn_dist2. unfold radii. real_ops.
  rewrite Hra, Hrb. lra.
Qed.

Lemma headOn_normal : normal a b = (1, 0).
Proof.
  rewrite normal_R by (rewrite headOn_dist2; lra).
  rewrite headOn_dist, Hx, Hy. f_equal; field.
Qed.

Lemma headOn_separate :
  separate 1 0 a b = (set_px a (px a - 5), set_px b (px b + 5)).
Proof.
  unfold separate. cbv zeta. fold (dist2 a b). real_ops. rewrite headOn_dist.
  rewrite Hra, Hrb, <- Hmass.
  unfold set_px, set_py. cbn [px py vx vy r m].
  f_equal; f_equal; field; lra.
Qed.

Lemma headOn_velAlongNormal (a1 b1 : Ball R) :
  vx a1 = vx a -> vx b1 = vx b -> vy a1 = vy a -> vy b1 = vy b ->
  velAlongNormal 1 0 a1 b1 = -100.
Proof.
  intros Hax Hbx Hay Hby. unfold velAlongNormal. real_ops.
  rewrite Hax, Hbx, Hay, Hby, Hvy. lra.
Qed.

Lemma headOn_normalImpulse (a1 b1 : Ball R) :
  vx a1 = vx a -> vx b1 = vx b -> vy a1 = vy a -> vy b1 = vy b ->
  m a1 = m a -> m b1 = m a ->
  normalImpulse 1 0 a1 b1 = 92 * m a.
Proof.
  intros Hax Hbx Hay Hby Hm1 Hm2. unfold normalImpulse.
  rewrite (headOn_velAlongNormal a1 b1) by assumption.
  unfold RESTITUTION. real_ops. rewrite Hm1, Hm2. field. lra.
Qed.

Lemma headOn_tangentImpulse (a1 b1 : Ball R) :
  vx a1 = vx a -> vx b1 = vx b -> vy a1 = vy a -> vy b1 = vy b ->
  tangentImpulse 1 0 a1 b1 = 0.
Proof.
  intros Hax Hbx Hay Hby. unfold tangentImpulse.
  generalize (normalImpulse 1 0 a1 b1). intros j. real_ops.
  rewrite Hax, Hbx, Hay, Hby, Hvy.
  replace (- ((vx b - vx a) * - 0 + (vy a - vy a) * 1) / (1 / m a1 + 1 / m b1))
    with 0 by (unfold Rdiv; ring).
  pose proof (Rabs_pos j) as Hj.
  rewrite Rmax_right by lra. rewrite Rmin_right by lra. reflexivity.
Qed.

Lemma headOn_result :
  collideBalls a b =
    (mkBall (px a - 5) (py a) (vx a - 92) (vy a) (r a) (m a),
     mkBall (px b + 5) (py b) (vx b + 92) (vy b) (r b) (m b)).
Proof.
  rewrite collideBalls_stages.
  rewrite headOn_contact, headOn_normal, headOn_separate, exchange_unfold.
  set (a1 := set_px a (px a - 5)). set (b1 := set_px b (px b + 5)).
  rewrite (headOn_velAlongNormal a1 b1) by reflexivity.
  rewrite (headOn_normalImpulse a1 b1)
    by (try reflexivity; symmetry; exact Hmass).
  rewrite (headOn_tangentImpulse a1 b1) by reflexivity.
  real_ops.
  replace (Rltb 0 (-100)) with false by (symmetry; apply Rltb_false; lra).
  subst a1 b1. cbn [px py vx vy r m set_px].
  rewrite <- Hmass. f_equal; f_equal; field; lra.
Qed.

(** C8. In the scenario above one call of [collideBalls] with
    RESTITUTION = 0.84 leaves the centres 100 apart, no closer than the 90
    they started at, and turns the velocity of b relative to a along the
    normal (1, 0) from -100 into 84: the bodies no longer approach and
    separate at 84. *)
Theorem head_on_collision :
  let a' := fst (collideBalls a b) in
  let b' := snd (collideBalls a b) in
  (sqrt (dist2 a b) = 90 /\ radii a b = 100 /\ normal a b = (1, 0) /\
   velAlongNormal 1 0 a b = -100 /\ RESTITUTION = 84 / 100) /\
  sqrt (dist2 a' b') = 100 /\
  sqrt (dist2 a b) <= sqrt (dist2 a' b') /\
  normal a' b' = (1, 0) /\
  0 <= velAlongNormal 1 0 a' b' /\
  velAlongNormal 1 0 a' b' = 84.
Proof.
  intros a' b'.
  assert (Hd' : dist2 a' b' = 100 * 100).
  { subst a' b'. rewrite headOn_result. unfold dist2. real_ops.
    cbn [fst snd px py]. rewrite Hy.
    replace (px b + 5 - (px a - 5)) with (px b - px a + 10) by ring.
    rewrite Hx. ring. }
  assert (Hdist' : sqrt (dist2 a' b') = 100)
    by (rewrite Hd'; apply sqrt_square; lra).
  assert (Hvel' : velAlongNormal 1 0 a' b' = 84).
  { subst a' b'. rewrite headOn_result. unfold velAlongNormal. real_ops.
    cbn [fst snd vx vy]. rewrite Hvy. lra. }
  split.
  { repeat split.
    - exact headOn_dist.
    - unfold radii. real_ops. rewrite Hra, Hrb. lra.
    - exact headOn_normal.
    - apply headOn_velAlongNormal; reflexivity. }
  split; [exact Hdist' |].
  split; [rewrite Hdist', headOn_dist; lra |].
  split.
  { rewrite normal_R by (rewrite Hd'; lra).
    rewrite Hdist'. subst a' b'. rewrite headOn_result.
    cbn [fst snd px py]. rewrite Hy.
    replace (px b + 5 - (px a - 5)) with (px b - px a + 10) by ring.
    rewrite Hx. f_equal; field. }
  split; [rewrite Hvel'; lra | exact Hvel'].
Qed.

End HeadOn.

(** The same scenario on binary64, whatever [Math.exp] and [Math.round]
    the engine has: a at the origin moving right at 50, b 90 to its right
    moving left at 50, both of radius 50.  The run gives the numbers of the
    real model exactly. *)
Example head_on_binary64 (fexp fround : float -> float) :
  let a := @set_vx float
              (@newBall float (float_num fexp fround) 0 0 50)%float 50%float in
  let b := @set_vx float
              (@newBall float (float_num fexp fround) 90 0 50)%float
              (-50)%float in
  @collideBalls float (float_num fexp fround) a b =
    (mkBall (-5) 0 (-42) 0 50 (m a), mkBall 95 0 42 0 50 (m b))%float.
Proof. intros a b. vm_compute. reflexivity. Qed.

(** An oblique contact on binary64, with both impulses at work: the two
    argument orders leave the same two bodies, bit for bit. *)
Example swap_binary64 (fexp fround : float -> float) :
  let a := @set_vy float
              (@set_vx float
                 (@newBall float (float_num fexp fround) 0 0 50)%float
                 30%float) 10%float in
  let b := @set_vy float
              (@set_vx float
                 (@newBall float (float_num fexp fround) 60 40 40)%float
                 (-20)%float) 5%float in
  @collideBalls float (float_num fexp fround) b a =
    (snd (@collideBalls float (float_num fexp fround) a b),
     fst (@collideBalls float (float_num fexp fround) a b)) /\
  @collideBalls float (float_num fexp fround) a b <> (a, b).
Proof.
  intros a b. split.
  - vm_compute. reflexivity.
  - vm_compute. intros Heq. inversion Heq.
Qed.

(** ** A body at rest on the floor *)

Section AtRest.

Local Open Scope R_scope.

Variable G : R.
Variable st : State R.

Lemma subDt_pos (dt : R) : 0 < dt -> 0 < subDtOf dt.
Proof.
  intros Hdt. unfold subDtOf, MAX_DT, SUBSTEPS_num, SUBSTEPS. real_ops.
  cbn [Z.of_nat Pos.of_succ_nat].
  assert (Hmin : 0 < Rmin (1 / 60) dt) by (apply Rmin_glb_lt; lra).
  lra.
Qed.

Lemma drag_bounds (s : R) : 0 < s -> 0 < dragOf s < 1.
Proof.
  intros Hs. unfold dragOf, AIR_DRAG. real_ops. split; [apply exp_pos |].
  rewrite <- exp_0. apply exp_increasing. lra.
Qed.

Lemma step_single (dt : R) (b : Ball R) :
  step G st dt [b] = [collideWalls st (integrate G (subDtOf dt) b)].
Proof. reflexivity. Qed.

Lemma wallLeft_rest (b : Ball R) :
  vx b = 0 ->
  vx (wallLeft b) = 0 /\ py (wallLeft b) = py b /\
  vy (wallLeft b) = vy b /\ r (wallLeft b) = r b.
Proof.
  intros Hvx. unfold wallLeft, RESTITUTION. real_ops.
  case_if; cbn; repeat split; try reflexivity; try exact Hvx.
  rewrite Hvx. lra.
Qed.

Lemma wallRight_rest (b : Ball R) :
  vx b = 0 ->
  vx (wallRight st b) = 0 /\ py (wallRight st b) = py b /\
  vy (wallRight st b) = vy b /\ r (wallRight st b) = r b.
Proof.
  intros Hvx. unfold wallRight, RESTITUTION. real_ops.
  case_if; cbn; repeat split; try reflexivity; try exact Hvx.
  rewrite Hvx. lra.
Qed.

Lemma wallTop_idle (b : Ball R) : 0 <= py b - r b -> wallTop b = b.
Proof.
  intros Hin. unfold wallTop. real_ops.
  replace (Rltb (py b - r b) 0) with false
    by (symmetry; apply Rltb_false; exact Hin).
  reflexivity.
Qed.

Lemma wallBottom_rest (b : Ball R) :
  h st < py b + r b -> vx b = 0 ->
  vx (wallBottom st b) = 0 /\ py (wallBottom st b) = h st - r b /\
  vy (wallBottom st b) = - vy b * (84 / 100) /\ r (wallBottom st b) = r b.
Proof.
  intros Hfire Hvx. apply Rltb_true in Hfire.
  rewrite wallBottom_vy, Hfire.
  unfold wallBottom, groundFriction, floorBounce, FRICTION. real_ops.
  rewrite Hfire. case_if; cbn; [case_if; cbn |]; repeat split; try assumption.
  (* friction applied and not below the stop threshold: 0 * (1 - f) *)
  rewrite Hvx. lra.
Qed.

(** One step takes a grounded body to a grounded body that moves up. *)
Lemma rest_step (s : R) (b : Ball R) :
  0 < G -> 0 < s -> 2 * r b <= h st ->
  grounded G st s b ->
  let b' := collideWalls st (integrate G s b) in
  grounded G st s b' /\ r b' = r b /\ vy b' < 0 /\
  vy b' = - ((vy b + G * s) * dragOf s) * (84 / 100).
Proof.
  intros HG Hs Hfit (Hvx & Hpy & Hlo & Hhi) b'.
  destruct (drag_bounds s Hs) as [Hd0 Hd1].
  pose proof (integrate_spec G s b) as Hint. cbv zeta in Hint.
  fold (dragOf s) in Hint. real_ops.
  set (u := (vy b + G * s) * dragOf s) in *.
  assert (Hgs : 0 < G * s) by (apply Rmult_lt_0_compat; assumption).
  assert (Hu : 0 < u) by (unfold u; apply Rmult_lt_0_compat; lra).
  assert (Hule : u <= G * s).
  { unfold u. apply Rle_trans with ((vy b + G * s) * 1); [| lra].
    apply Rmult_le_compat_l; lra. }
  assert (Hus : 0 < u * s) by (apply Rmult_lt_0_compat; assumption).
  set (b0 := integrate G s b) in *.
  assert (H0 : vx b0 = 0 /\ py b0 = h st - r b + u * s /\ vy b0 = u /\
               r b0 = r b).
  { rewrite Hint. cbn [vx py vy r]. rewrite Hvx, Hpy. repeat split; ring. }
  destruct H0 as (H0vx & H0py & H0vy & H0r).
  destruct (wallLeft_rest b0 H0vx) as (H1vx & H1py & H1vy & H1r).
  destruct (wallRight_rest (wallLeft b0) H1vx) as (H2vx & H2py & H2vy & H2r).
  set (b2 := wallRight st (wallLeft b0)) in *.
  assert (Htop : wallTop b2 = b2).
  { apply wallTop_idle. rewrite H2py, H1py, H0py, H2r, H1r, H0r. lra. }
  assert (Hfire : h st < py b2 + r b2).
  { rewrite H2py, H1py, H0py, H2r, H1r, H0r. lra. }
  destruct (wallBottom_rest b2 Hfire H2vx) as (H3vx & H3py & H3vy & H3r).
  assert (Hb' : b' = wallBottom st b2).
  { unfold b'. rewrite collideWalls_stages. fold b0. fold b2.
    rewrite Htop. reflexivity. }
  rewrite Hb'.
  rewrite H3vy, H3r, H2vy, H1vy, H0vy, H2r, H1r, H0r.
  unfold grounded. rewrite H3vx, H3py, H3vy, H3r, H2vy, H1vy, H0vy, H2r, H1r, H0r.
  repeat split; try lra.
Qed.

Lemma grounded_at_rest (s : R) (b : Ball R) :
  0 < G -> 0 < s ->
  vx b = 0 -> vy b = 0 -> py b = h st - r b -> grounded G st s b.
Proof.
  intros HG Hs Hvx Hvy Hpy. unfold grounded. rewrite Hvy.
  assert (0 < G * s) by (apply Rmult_lt_0_compat; assumption).
  repeat split; try assumption; lra.
Qed.

Lemma rest_steps (dt : R) (b : Ball R) (n : nat) :
  0 < G -> 0 < dt -> 2 * r b <= h st ->
  grounded G st (subDtOf dt) b ->
  exists b',
    Nat.iter n (step G st dt) [b] = [b'] /\ r b' = r b /\
    grounded G st (subDtOf dt) b' /\ (n <> 0%nat -> vy b' < 0).
Proof.
  intros HG Hdt Hfit Hb.
  induction n as [| n (bn & Hrun & Hr & Hg & _)].
  - exists b. split; [reflexivity |]. split; [reflexivity |].
    split; [exact Hb |]. intros Hn. now elim Hn.
  - rewrite Nat.iter_succ, Hrun, step_single.
    destruct (rest_step (subDtOf dt) bn HG (subDt_pos dt Hdt))
      as (Hg' & Hr' & Hneg & _);
      [rewrite Hr; exact Hfit | exact Hg |].
    eexists. split; [reflexivity |].
    split; [congruence |]. split; [exact Hg' |]. intros _. exact Hneg.
Qed.

End AtRest.

(** ** Concrete runs *)

Section Runs.

Local Open Scope R_scope.

Lemma wallLeft_idle (b : Ball R) : 0 <= px b - r b -> wallLeft b = b.
Proof.
  intros Hin. unfold wallLeft. real_ops.
  replace (Rltb (px b - r b) 0) with false
    by (symmetry; apply Rltb_false; exact Hin).
  reflexivity.
Qed.

Lemma wallRight_idle (st : State R) (b : Ball R) :
  px b + r b <= w st -> wallRight st b = b.
Proof.
  intros Hin. unfold wallRight. real_ops.
  replace (Rltb (w st) (px b + r b)) with false
    by (symmetry; apply Rltb_false; exact Hin).
  reflexivity.
Qed.

(** Six spawns into the empty population: four bodies are left, the last
    four spawned. *)
Lemma population_bound_witness :
  (length (@nil (Ball R)) <= MAX_BALLS)%nat /\
  (length (spawnAll arena sampleOps []) <= MAX_BALLS)%nat /\
  spawnAll arena sampleOps [] = lastn MAX_BALLS (map (spawned arena) sampleOps).
Proof.
  assert (H0 : (length (@nil (Ball R)) <= MAX_BALLS)%nat) by (cbn; lia).
  split; [exact H0 |].
  destruct (population_bound arena sampleOps [] H0) as (_ & Hlen & Hlast & _).
  split; [exact Hlen | exact Hlast].
Defined.

(** A ball across the left wall is put back against it and sent right. *)
Lemma wall_bounce_witness :
  px crossingBall - r crossingBall < 0 /\
  px (wallLeft crossingBall) = r crossingBall /\
  vx (wallLeft crossingBall) = - vx crossingBall * RESTITUTION.
Proof.
  assert (Hfire : px crossingBall - r crossingBall < 0) by (cbn; lra).
  split; [exact Hfire |].
  destruct (wall_bounce arena crossingBall) as (_ & Hleft & _).
  exact (Hleft Hfire).
Defined.

(** The two balls of the head-on scenario overlap: the correction moves no
    velocity and the call is the impulse exchange on the corrected pair. *)
Lemma depenetration_witness :
  0 < dist2 leftBall rightBall <=
    radii leftBall rightBall * radii leftBall rightBall /\
  vx (fst (separate (90 / sqrt (dist2 leftBall rightBall))
                    (0 / sqrt (dist2 leftBall rightBall))
                    leftBall rightBall)) = vx leftBall /\
  px (fst (collideBalls leftBall rightBall)) =
    px leftBall -
    (px rightBall - px leftBall) / sqrt (dist2 leftBall rightBall) *
    ((radii leftBall rightBall - sqrt (dist2 leftBall rightBall)) *
     m rightBall / (m leftBall + m rightBall)).
Proof.
  assert (Hcontact : 0 < dist2 leftBall rightBall <=
                       radii leftBall rightBall * radii leftBall rightBall)
    by (unfold dist2, radii; cbn; lra).
  split; [exact Hcontact |].
  destruct (depenetration leftBall rightBall Hcontact)
    as (_ & _ & _ & _ & (Hpx & _) & _).
  split; [reflexivity | exact Hpx].
Defined.

(** Two balls of radius 50 whose centres are 200 apart are left alone. *)
Lemma collideBalls_no_contact_witness :
  Rltb (radii leftBall farBall * radii leftBall farBall)
       (dist2 leftBall farBall) = true /\
  collideBalls leftBall farBall = (leftBall, farBall).
Proof.
  assert (Hfar : Rltb (radii leftBall farBall * radii leftBall farBall)
                      (dist2 leftBall farBall) = true)
    by (apply Rltb_true; unfold dist2, radii; cbn; lra).
  split; [exact Hfar |].
  apply (collideBalls_no_contact leftBall farBall). right. exact Hfar.
Defined.

(** A ball that crosses the floor at vy = 20 and vx = 10 leaves the call on
    the floor, with vy = -16.8 and vx damped to 10 * (1 - FRICTION). *)
Lemma ground_friction_witness :
  Rltb (h arena) (py slidingBall + r slidingBall) = true /\
  collideWalls arena slidingBall =
    set_vx (floorBounce arena slidingBall) (10 * (1 - FRICTION)).
Proof.
  assert (Hb : wallTop (wallRight arena (wallLeft slidingBall)) = slidingBall).
  { rewrite wallLeft_idle by (cbn; lra).
    rewrite wallRight_idle by (cbn; lra).
    apply wallTop_idle. cbn. lra. }
  assert (Hfloor : Rltb (h arena) (py slidingBall + r slidingBall) = true)
    by (apply Rltb_true; cbn; lra).
  split; [exact Hfloor |].
  pose proof (ground_friction arena slidingBall) as Hcall.
  cbv zeta in Hcall. rewrite Hb in Hcall.
  destruct Hcall as [Hfired _].
  destruct (Hfired Hfloor) as [Hdamped _].
  rewrite Hdamped.
  - replace (vx slidingBall) with 10 by reflexivity.
    unfold FRICTION. real_ops.
    replace (Rltb (Rabs (10 * (1 - 8 / 1000))) 2) with false; [reflexivity |].
    symmetry. apply Rltb_false. rewrite Rabs_pos_eq; lra.
  - apply Rltb_true. unfold floorBounce. cbn.
    replace (600 - 80 + 80 - 600) with 0 by ring. rewrite Rabs_R0. lra.
  - apply Rltb_true. unfold floorBounce, RESTITUTION. cbn.
    rewrite Rabs_left; lra.
Defined.

(** C6 as stated fails: a ball 0.1 above the floor (py + r = 599.9 in an
    arena of height 600), moving at vx = 10 and vy = 5, is within 0.5 of
    resting on the floor and slower than 50, yet [collideWalls] returns it
    with vx = 10, not 10 * (1 - FRICTION): the floor check did not fire. *)
Lemma ground_friction_needs_contact :
  Rabs (py hoverBall + r hoverBall - h arena) < 5 / 10 /\
  Rabs (vy hoverBall) < 50 /\
  collideWalls arena hoverBall = hoverBall /\
  vx (collideWalls arena hoverBall) = 10 /\
  vx (collideWalls arena hoverBall) <> vx hoverBall * (1 - FRICTION).
Proof.
  assert (Hsame : collideWalls arena hoverBall = hoverBall).
  { rewrite collideWalls_stages.
    rewrite wallLeft_idle by (cbn; lra).
    rewrite wallRight_idle by (cbn; lra).
    rewrite wallTop_idle by (cbn; lra).
    apply wallBottom_idle. real_ops. apply Rltb_false. cbn. lra. }
  split; [cbn; apply Rabs_def1; lra |].
  split; [cbn; rewrite Rabs_pos_eq; lra |].
  split; [exact Hsame |].
  rewrite Hsame. split; [reflexivity |].
  unfold FRICTION. cbn. lra.
Qed.

(** The head-on scenario with both masses pi * 50^2. *)
Lemma head_on_collision_witness :
  (r leftBall = 50 /\ r rightBall = 50 /\ m leftBall = m rightBall /\
   px rightBall - px leftBall = 90 /\ vx leftBall - vx rightBall = 100) /\
  sqrt (dist2 (fst (collideBalls leftBall rightBall))
              (snd (collideBalls leftBall rightBall))) = 100 /\
  velAlongNormal 1 0 (fst (collideBalls leftBall rightBall))
                     (snd (collideBalls leftBall rightBall)) = 84.
Proof.
  assert (Hm : 0 < m leftBall) by (cbn; pose proof PI_RGT_0; lra).
  split; [cbn; repeat split; lra |].
  destruct (head_on_collision leftBall rightBall)
    as (_ & Hdist & _ & _ & _ & Hvel);
    try (cbn; lra); try reflexivity; try exact Hm.
  split; [exact Hdist | exact Hvel].
Defined.

End Runs.

(** * The rest of the page *)

(** ** The event loop and the collision loops, in every model *)

Section PageGeneric.

Context {F : Type} `{JSNum F}.
Local Open Scope js_scope.
Variable G : F.

(** *** The population under every event *)

Lemma spawnBatch_bound (st : State F) (draw : nat -> F * F * F * F * F)
    (n : nat) :
  forall (i : nat) (bs : list (Ball F)),
    (length bs <= MAX_BALLS)%nat ->
    (length (spawnBatch st draw i n bs) <= MAX_BALLS)%nat.
Proof.
  induction n as [| n IH]; intros i bs Hlen; cbn [spawnBatch].
  - exact Hlen.
  - destruct (draw i) as [[[[u1 u2] u3] u4] u5].
    apply IH. unfold spawnRandomBall. apply pushBall_length. exact Hlen.
Qed.

Lemma spawnBatch_count (st : State F) (draw : nat -> F * F * F * F * F)
    (n : nat) :
  forall (i : nat) (bs : list (Ball F)),
    (length bs + n <= MAX_BALLS)%nat ->
    length (spawnBatch st draw i n bs) = (length bs + n)%nat.
Proof.
  induction n as [| n IH]; intros i bs Hlen; cbn [spawnBatch].
  - lia.
  - destruct (draw i) as [[[[u1 u2] u3] u4] u5].
    assert (Hpush : length (spawnRandomBall st u1 u2 u3 u4 u5 bs)
                    = S (length bs)).
    { unfold spawnRandomBall. rewrite pushBall_room by lia.
      rewrite length_app. cbn [length]. lia. }
    rewrite IH; rewrite Hpush; lia.
Qed.

Lemma handle_bound (wd : World F) (ev : Event F) :
  (length (wBalls wd) <= MAX_BALLS)%nat ->
  (length (wBalls (handle G wd ev)) <= MAX_BALLS)%nat.
Proof.
  intros Hlen. destruct ev; cbn [handle resize animate mousedown mouseup wBalls].
  - exact Hlen.
  - rewrite step_length. exact Hlen.
  - unfold spawnRandomBall. apply pushBall_length. exact Hlen.
  - exact Hlen.
  - apply pushBall_length. exact Hlen.
  - cbn. lia.
Qed.

Lemma run_bound (evs : list (Event F)) :
  forall wd : World F,
    (length (wBalls wd) <= MAX_BALLS)%nat ->
    (length (wBalls (run G evs wd)) <= MAX_BALLS)%nat.
Proof.
  unfold run. induction evs as [| ev evs IH]; intros wd Hlen; cbn [fold_left].
  - exact Hlen.
  - apply IH, handle_bound, Hlen.
Qed.

(** X1. The script starts with INITIAL_BALLS = 2 bodies, and whatever
    events follow (resizes, frames, spawn timers, mouse downs and ups,
    double clicks, in any order and with any values), the population never
    holds more than MAX_BALLS = 4 bodies. *)
Theorem page_population_bound (cw ch : F) (ratio : option F)
    (draw : nat -> F * F * F * F * F) (now : F) (evs : list (Event F)) :
  let wd0 := kickoff cw ch ratio draw now in
  length (wBalls wd0) = INITIAL_BALLS /\
  (length (wBalls (run G evs wd0)) <= MAX_BALLS)%nat.
Proof.
  intros wd0.
  assert (Hstart : length (wBalls wd0) = INITIAL_BALLS).
  { unfold wd0, kickoff. cbn [wBalls].
    rewrite spawnBatch_count;
      unfold INITIAL_BALLS, MAX_BALLS; cbn [length]; lia. }
  split; [exact Hstart |].
  apply run_bound. rewrite Hstart. unfold INITIAL_BALLS, MAX_BALLS. lia.
Qed.

(** X2. A frame never adds or removes a body: [animate] keeps the number
    of bodies, the arena and the pending drag, and records the clock. *)
Theorem animate_frame (now : F) (wd : World F) :
  length (wBalls (animate G now wd)) = length (wBalls wd) /\
  wState (animate G now wd) = wState wd /\
  wDragStart (animate G now wd) = wDragStart wd /\
  wLast (animate G now wd) = now.
Proof.
  cbn [animate wBalls wState wDragStart wLast].
  rewrite step_length. repeat split.
Qed.

End PageGeneric.

Section PairLoops.

Context {F : Type} `{JSNum F}.

Lemma collideAt_length (i j : nat) (bs : list (Ball F)) :
  length (collideAt i j bs) = length bs.
Proof.
  rewrite <- (length_map shape), collideAt_shape. apply length_map.
Qed.

Lemma collidePairs_length (ps : list (nat * nat)) :
  forall bs : list (Ball F), length (collidePairs ps bs) = length bs.
Proof.
  unfold collidePairs.
  induction ps as [| p ps IH]; intros bs; cbn [fold_left]; [reflexivity |].
  now rewrite IH, collideAt_length.
Qed.

Lemma collideFrom_pairs (i n : nat) :
  forall (j : nat) (bs : list (Ball F)),
    collideFrom i j n bs = collidePairs (pairsFrom i j n) bs.
Proof.
  induction n as [| n IH]; intros j bs; cbn; [reflexivity |].
  apply IH.
Qed.

Lemma collideRows_pairs (n : nat) :
  forall (i : nat) (bs : list (Ball F)),
    collideRows i n bs = collidePairs (pairRows (length bs) i n) bs.
Proof.
  induction n as [| n IH]; intros i bs; cbn [collideRows pairRows];
    [reflexivity |].
  rewrite IH, collideFrom_pairs, collidePairs_length.
  unfold collidePairs. now rewrite fold_left_app.
Qed.

Lemma pairsFrom_In (i n : nat) :
  forall j p q : nat,
    In (p, q) (pairsFrom i j n) <-> p = i /\ (j <= q < j + n)%nat.
Proof.
  induction n as [| n IH]; intros j p q; cbn [pairsFrom In].
  - split; [intros [] | lia].
  - rewrite IH. split.
    + intros [Heq | [Hp Hq]]; [inversion Heq; lia | lia].
    + intros [Hp Hq]. destruct (Nat.eq_dec q j) as [-> | Hne].
      * left. now subst.
      * right. lia.
Qed.

Lemma pairRows_In (len n : nat) :
  forall i p q : nat,
    In (p, q) (pairRows len i n) <->
    (i <= p < i + n)%nat /\ (p < q < len)%nat.
Proof.
  induction n as [| n IH]; intros i p q; cbn [pairRows].
  - split; [intros [] | lia].
  - rewrite in_app_iff, pairsFrom_In, IH. lia.
Qed.

Lemma pairsFrom_NoDup (i n : nat) : forall j : nat, NoDup (pairsFrom i j n).
Proof.
  induction n as [| n IH]; intros j; cbn [pairsFrom]; constructor.
  - rewrite pairsFrom_In. lia.
  - apply IH.
Qed.

Lemma pairRows_NoDup (len n : nat) : forall i : nat, NoDup (pairRows len i n).
Proof.
  induction n as [| n IH]; intros i; cbn [pairRows]; [constructor |].
  apply NoDup_app; [apply pairsFrom_NoDup | apply IH |].
  intros [p q] Hin Hin'.
  apply pairsFrom_In in Hin. apply pairRows_In in Hin'. lia.
Qed.

Lemma StronglySorted_app {A : Type} (lt : A -> A -> Prop) (l1 l2 : list A) :
  StronglySorted lt l1 -> StronglySorted lt l2 ->
  (forall x y, In x l1 -> In y l2 -> lt x y) ->
  StronglySorted lt (l1 ++ l2).
Proof.
  intros H1 H2 Hcross. induction H1 as [| a l Hl IH Ha]; cbn; [exact H2 |].
  constructor.
  - apply IH. intros x y Hx. apply Hcross. now right.
  - apply Forall_app. split; [exact Ha |].
    apply Forall_forall. intros y Hy. apply Hcross; [now left | exact Hy].
Qed.

Lemma pairsFrom_sorted (i n : nat) :
  forall j : nat, StronglySorted pairLt (pairsFrom i j n).
Proof.
  induction n as [| n IH]; intros j; cbn [pairsFrom]; constructor.
  - apply IH.
  - apply Forall_forall. intros [p q] Hin.
    apply pairsFrom_In in Hin. unfold pairLt. cbn [fst snd]. lia.
Qed.

Lemma pairRows_sorted (len n : nat) :
  forall i : nat, StronglySorted pairLt (pairRows len i n).
Proof.
  induction n as [| n IH]; intros i; cbn [pairRows]; [constructor |].
  apply StronglySorted_app; [apply pairsFrom_sorted | apply IH |].
  intros [p q] [p' q'] Hin Hin'.
  apply pairsFrom_In in Hin. apply pairRows_In in Hin'.
  unfold pairLt. cbn [fst snd]. lia.
Qed.

(** X3. The two nested loops of [step] call [collideBalls] on the pairs
    (i, j) with i < j below the number of bodies, on each such pair once and
    on no other, and in ascending order: every pair comes before the pairs
    of a larger i, and before the pairs of the same i and a larger j. *)
Theorem collideAll_pairs (bs : list (Ball F)) :
  collideAll bs = collidePairs (pairs (length bs)) bs /\
  (forall p q : nat,
     In (p, q) (pairs (length bs)) <-> (p < q < length bs)%nat) /\
  NoDup (pairs (length bs)) /\
  StronglySorted pairLt (pairs (length bs)).
Proof.
  split; [apply collideRows_pairs |].
  split; [| split; [apply pairRows_NoDup | apply pairRows_sorted]].
  intros p q. unfold pairs. rewrite pairRows_In. lia.
Qed.

End PairLoops.

Section Untouched.

Context {F : Type} `{JSNum F}.

Lemma setAt_same (i : nat) (x : Ball F) :
  forall bs : list (Ball F), nth_error bs i = Some x -> setAt i x bs = bs.
Proof.
  induction i as [| i IH]; intros [| y t] Hi; cbn in *; try discriminate.
  - now inversion Hi.
  - f_equal. now apply IH.
Qed.

Lemma collidePairs_apart (bs : list (Ball F)) (ps : list (nat * nat)) :
  (forall p q a b,
     In (p, q) ps -> nth_error bs p = Some a -> nth_error bs q = Some b ->
     noContact a b = true) ->
  collidePairs ps bs = bs.
Proof.
  unfold collidePairs.
  induction ps as [| [p q] ps IH]; intros Hapart; cbn [fold_left fst snd];
    [reflexivity |].
  assert (Hhead : collideAt p q bs = bs).
  { unfold collideAt.
    destruct (nth_error bs p) as [a |] eqn:Hp; [| reflexivity].
    destruct (nth_error bs q) as [b |] eqn:Hq; [| reflexivity].
    rewrite collideBalls_stages, (Hapart p q a b (or_introl eq_refl) Hp Hq).
    rewrite (setAt_same p a bs Hp). apply setAt_same. exact Hq. }
  rewrite Hhead. apply IH.
  intros p' q' a b Hin. apply Hapart. now right.
Qed.

Lemma collideAll_untouched (bs : list (Ball F)) :
  (forall p q a b,
     (p < q)%nat -> nth_error bs p = Some a -> nth_error bs q = Some b ->
     noContact a b = true) ->
  collideAll bs = bs.
Proof.
  intros Hapart. unfold collideAll.
  rewrite collideRows_pairs. apply collidePairs_apart.
  intros p q a b Hpq. apply Hapart. apply pairRows_In in Hpq. lia.
Qed.

(** X4. Bodies of which no two are in contact (each pair passes the early
    exit of [collideBalls]) come out of the collision loops as they went
    in. *)
Theorem collideAll_apart (bs : list (Ball F)) :
  (forall p q a b,
     (p < q)%nat -> nth_error bs p = Some a -> nth_error bs q = Some b ->
     noContact a b = true) ->
  collideAll bs = bs.
Proof.
  intros Hapart. apply collideAll_untouched. exact Hapart.
Qed.

(** A body inside the arena passes the four wall checks unchanged. *)
Lemma collideWalls_inside (st : State F) (b : Ball F) :
  inside st b = true -> collideWalls st b = b.
Proof.
  unfold inside. rewrite !andb_true_iff, !negb_true_iff.
  intros [[[Hl Hr] Ht] Hb].
  rewrite collideWalls_stages.
  unfold wallLeft. rewrite Hl.
  unfold wallRight. rewrite Hr.
  unfold wallTop. rewrite Ht.
  unfold wallBottom. rewrite Hb. reflexivity.
Qed.

End Untouched.

(** ** The navigation bar *)

Section NavBar.

Lemma clearClicked_items (nv : Nav) :
  itemsNavBar (clearClicked nv) = repeat false (length (itemsNavBar nv)).
Proof.
  unfold clearClicked. cbn [itemsNavBar].
  induction (itemsNavBar nv) as [| c t IH]; cbn; [reflexivity |].
  now rewrite IH.
Qed.

Lemma filter_repeat_false (n : nat) :
  filter (fun c : bool => c) (repeat false n) = [].
Proof. induction n as [| n IH]; cbn; [reflexivity | exact IH]. Qed.

Lemma addClicked_count (n : nat) :
  forall i : nat,
    (length (filter (fun c : bool => c) (addClicked i (repeat false n)))
     <= 1)%nat.
Proof.
  induction n as [| n IH]; intros [| i]; cbn; try lia.
  - rewrite filter_repeat_false. cbn. lia.
  - apply IH.
Qed.

Lemma addClicked_length (i : nat) :
  forall items : list bool, length (addClicked i items) = length items.
Proof.
  induction i as [| i IH]; intros [| c t]; cbn; try reflexivity.
  now rewrite IH.
Qed.

Lemma addClicked_nth (i : nat) :
  forall items : list bool,
    (i < length items)%nat -> nth i (addClicked i items) false = true.
Proof.
  induction i as [| i IH]; intros [| c t] Hi; cbn in *;
    try reflexivity; try lia.
  apply IH. lia.
Qed.

Lemma handleClicked_count (i : nat) (nv : Nav) :
  (clickedCount (handleClicked i nv) <= 1)%nat.
Proof.
  unfold handleClicked, clickedCount.
  destruct (nth i (itemsNavBar nv) false); cbn [negb itemsNavBar];
    rewrite clearClicked_items.
  - rewrite filter_repeat_false. cbn. lia.
  - apply addClicked_count.
Qed.

Lemma handleClicked_length (i : nat) (nv : Nav) :
  length (itemsNavBar (handleClicked i nv)) = length (itemsNavBar nv).
Proof.
  unfold handleClicked.
  destruct (nth i (itemsNavBar nv) false); cbn [negb itemsNavBar];
    rewrite ?addClicked_length; unfold clearClicked; cbn [itemsNavBar];
    apply length_map.
Qed.

(** X5. After [handleClicked] at most one item of the bar holds "clicked",
    whatever the bar looked like before and whichever item was hit; the
    document listener, on a click outside [nav], leaves none and hides the
    dropdown if there is one, and does nothing on a click inside [nav].
    None of them changes the number of items. *)
Theorem nav_exclusive (nv : Nav) :
  (forall i, (clickedCount (handleClicked i nv) <= 1)%nat /\
             length (itemsNavBar (handleClicked i nv))
               = length (itemsNavBar nv) /\
             dropdown (handleClicked i nv) = dropdown nv) /\
  (clickedCount (documentClick false nv) = 0%nat /\
   length (itemsNavBar (documentClick false nv)) = length (itemsNavBar nv) /\
   dropdown (documentClick false nv)
     = option_map (fun _ => true) (dropdown nv)) /\
  documentClick true nv = nv.
Proof.
  split; [| split].
  - intros i. split; [apply handleClicked_count |].
    split; [apply handleClicked_length |].
    unfold handleClicked. destruct (nth i (itemsNavBar nv) false); reflexivity.
  - unfold documentClick, clickedCount. cbn [negb itemsNavBar dropdown].
    rewrite clearClicked_items, filter_repeat_false, repeat_length.
    repeat split.
  - reflexivity.
Qed.

(** X6. [handleClicked] on an item that does not hold "clicked" marks that
    item and only it; [handleClicked] on it again leaves no item marked.
    Toggling the dropdown twice leaves it as it was. *)
Theorem nav_toggles (i : nat) (nv : Nav) :
  (i < length (itemsNavBar nv))%nat ->
  nth i (itemsNavBar nv) false = false ->
  let once := handleClicked i nv in
  let twice := handleClicked i once in
  nth i (itemsNavBar once) false = true /\
  clickedCount once = 1%nat /\
  clickedCount twice = 0%nat /\
  toggleDropdown (toggleDropdown nv) = nv.
Proof.
  intros Hi Hoff once twice.
  assert (Hitems : itemsNavBar once
                   = addClicked i (repeat false (length (itemsNavBar nv)))).
  { unfold once, handleClicked. rewrite Hoff. cbn [negb itemsNavBar].
    now rewrite clearClicked_items. }
  assert (Hon : nth i (itemsNavBar once) false = true).
  { rewrite Hitems. apply addClicked_nth. now rewrite repeat_length. }
  assert (Htwice : itemsNavBar twice
                   = repeat false (length (itemsNavBar nv))).
  { unfold twice, handleClicked. rewrite Hon. cbn [negb].
    rewrite clearClicked_items, Hitems, addClicked_length, repeat_length.
    reflexivity. }
  split; [exact Hon |].
  split.
  - pose proof (handleClicked_count i nv) as Hle. fold once in Hle.
    assert (Hpos : (0 < clickedCount once)%nat).
    { unfold clickedCount.
      destruct (filter (fun c : bool => c) (itemsNavBar once)) eqn:Hf;
        [| cbn; lia].
      assert (Hin : In true (filter (fun c : bool => c) (itemsNavBar once))).
      { apply filter_In. split; [| reflexivity].
        rewrite <- Hon. apply nth_In.
        rewrite Hitems, addClicked_length, repeat_length. exact Hi. }
      rewrite Hf in Hin. destruct Hin. }
    lia.
  - split.
    + unfold clickedCount. rewrite Htwice, filter_repeat_false. reflexivity.
    + unfold toggleDropdown. destruct nv as [items [[|] |]]; reflexivity.
Qed.

End NavBar.

(** ** Utilities and the integrator over the real numbers *)

Section UtilitiesReal.

Local Open Scope R_scope.

(** X7. With a draw u of [Math.random()], 0 <= u < 1, and min <= max,
    [rand(min, max)] lies between min and max, both included; the delay of
    the next scheduled spawn lies between 4000 and 8000, both included. *)
Theorem rand_range (u lo hi : R) :
  0 <= u < 1 -> lo <= hi ->
  lo <= rand u lo hi <= hi /\
  4000 <= nextSpawnDelay u <= 8000.
Proof.
  intros [Hu0 Hu1] Hle.
  unfold nextSpawnDelay, MIN_SPAWN_MS, MAX_SPAWN_MS, rand. real_ops.
  assert (Hspan : 0 <= u * (hi - lo)) by (apply Rmult_le_pos; lra).
  assert (Htop : u * (hi - lo) <= 1 * (hi - lo))
    by (apply Rmult_le_compat_r; lra).
  repeat split; lra.
Qed.

(** X8. [clamp(v, a, b)] with a <= b lies in [a, b], is v itself when v
    lies there, a below and b above, and clamping again changes nothing;
    with the bounds the wrong way round, a > b, it is b. *)
Theorem clamp_spec (v a b : R) :
  (a <= b ->
   a <= clamp v a b <= b /\
   (a <= v <= b -> clamp v a b = v) /\
   (v <= a -> clamp v a b = a) /\
   (b <= v -> clamp v a b = b) /\
   clamp (clamp v a b) a b = clamp v a b) /\
  (b < a -> clamp v a b = b).
Proof.
  unfold clamp. real_ops. split.
  - intros Hab.
    assert (Hin : a <= Rmin b (Rmax a v) <= b).
    { unfold Rmin, Rmax.
      repeat match goal with
             | |- context [Rle_dec ?x ?y] => destruct (Rle_dec x y)
             end; lra. }
    split; [exact Hin |].
    split; [| split; [| split]].
    + intros [Hav Hvb]. rewrite Rmax_right, Rmin_right; lra.
    + intros Hva. rewrite Rmax_left, Rmin_right; lra.
    + intros Hbv. rewrite Rmax_right, Rmin_left; lra.
    + rewrite (Rmax_right a (Rmin b (Rmax a v))) by lra.
      apply Rmin_right. lra.
  - intros Hba. apply Rmin_left.
    pose proof (Rmax_l a v). lra.
Qed.

Lemma drag_range (s : R) : 0 < s -> 0 < dragOf s < 1.
Proof.
  intros Hs. unfold dragOf, AIR_DRAG. real_ops. split; [apply exp_pos |].
  rewrite <- exp_0. apply exp_increasing. lra.
Qed.

(** X9. Over a time slice dt > 0 the air drag keeps the direction of the
    horizontal velocity and strictly lowers its size unless it is zero:
    vx becomes vx times a factor in (0, 1). *)
Theorem integrate_slows (G dt : R) (b : Ball R) :
  0 < dt ->
  let b' := integrate G dt b in
  vx b' = vx b * dragOf dt /\ 0 < dragOf dt < 1 /\
  Rabs (vx b') <= Rabs (vx b) /\
  (vx b <> 0 -> Rabs (vx b') < Rabs (vx b)) /\
  0 <= vx b' * vx b.
Proof.
  intros Hdt b'.
  destruct (drag_range dt Hdt) as [Hd0 Hd1].
  assert (Hvx : vx b' = vx b * dragOf dt) by reflexivity.
  assert (Habs : Rabs (vx b') = Rabs (vx b) * dragOf dt).
  { rewrite Hvx, Rabs_mult, (Rabs_pos_eq (dragOf dt)); lra. }
  pose proof (Rabs_pos (vx b)) as Hpos.
  split; [exact Hvx |]. split; [split; assumption |].
  split; [rewrite Habs; nra |].
  split.
  - intros Hne. apply Rabs_pos_lt in Hne. rewrite Habs. nra.
  - rewrite Hvx. pose proof (Rle_0_sqr (vx b)) as Hsq. unfold Rsqr in Hsq.
    replace (vx b * dragOf dt * vx b) with (vx b * vx b * dragOf dt) by ring.
    apply Rmult_le_pos; lra.
Qed.

(** X10. The fall speed is bounded: with gravity G >= 0 and dt > 0, a body
    whose vy is at most the terminal value G * dt * d / (1 - d), d the drag
    factor of dt, still has vy at most that value after [integrate]. *)
Theorem integrate_terminal (G dt : R) (b : Ball R) :
  0 <= G -> 0 < dt ->
  let terminal := G * dt * dragOf dt / (1 - dragOf dt) in
  vy b <= terminal ->
  vy (integrate G dt b) <= terminal /\ 0 <= terminal.
Proof.
  intros HG Hdt terminal Hvy.
  destruct (drag_range dt Hdt) as [Hd0 Hd1].
  assert (Hvy' : vy (integrate G dt b) = (vy b + G * dt) * dragOf dt)
    by reflexivity.
  assert (Hfix : terminal = (terminal + G * dt) * dragOf dt)
    by (unfold terminal; field; lra).
  assert (Hgd : 0 <= G * dt) by (apply Rmult_le_pos; lra).
  split.
  - rewrite Hvy', Hfix. apply Rmult_le_compat_r; lra.
  - unfold terminal. unfold Rdiv. apply Rmult_le_pos.
    + apply Rmult_le_pos; lra.
    + left. apply Rinv_0_lt_compat. lra.
Qed.

(** X11. The drag compounds exactly over sub-steps: the horizontal
    velocity after two calls of [integrate], with dt1 then dt2, is the one
    after a single call with dt1 + dt2. *)
Theorem integrate_drag_compounds (G dt1 dt2 : R) (b : Ball R) :
  vx (integrate G dt2 (integrate G dt1 b)) = vx (integrate G (dt1 + dt2) b).
Proof.
  change (vx b * dragOf dt1 * dragOf dt2 = vx b * dragOf (dt1 + dt2)).
  unfold dragOf, AIR_DRAG. real_ops.
  replace (- (8 / 10000) * (dt1 + dt2) * 1000)
    with (- (8 / 10000) * dt1 * 1000 + - (8 / 10000) * dt2 * 1000) by ring.
  rewrite exp_plus. ring.
Qed.

End UtilitiesReal.

(** ** The walls and the frame over the real numbers *)

Section FrameReal.

Local Open Scope R_scope.

Lemma inside_R (st : State R) (b : Ball R) :
  inside st b = true <->
  r b <= px b <= w st - r b /\ r b <= py b <= h st - r b.
Proof.
  unfold inside. real_ops.
  rewrite !andb_true_iff, !negb_true_iff, !Rltb_false. lra.
Qed.

Lemma wallLeft_bounds (b : Ball R) :
  r b <= px (wallLeft b) /\ r (wallLeft b) = r b /\
  py (wallLeft b) = py b.
Proof.
  unfold wallLeft. real_ops. real_cases; cbn; repeat split; lra.
Qed.

Lemma wallRight_bounds (st : State R) (b : Ball R) :
  2 * r b <= w st -> r b <= px b ->
  r b <= px (wallRight st b) <= w st - r b /\
  r (wallRight st b) = r b /\ py (wallRight st b) = py b.
Proof.
  intros Hfit Hleft. unfold wallRight. real_ops.
  real_cases; cbn; repeat split; lra.
Qed.

Lemma wallTop_bounds (b : Ball R) :
  r b <= py (wallTop b) /\ r (wallTop b) = r b /\
  px (wallTop b) = px b.
Proof.
  unfold wallTop. real_ops. real_cases; cbn; repeat split; lra.
Qed.

Lemma wallBottom_bounds (st : State R) (b : Ball R) :
  2 * r b <= h st -> r b <= py b ->
  r b <= py (wallBottom st b) <= h st - r b /\
  r (wallBottom st b) = r b /\ px (wallBottom st b) = px b.
Proof.
  intros Hfit Htop.
  unfold wallBottom, groundFriction, floorBounce. real_ops.
  destruct (Rltb (h st) (py b + r b)) eqn:Hfire.
  - case_if; cbn; [case_if; cbn |]; repeat split; lra.
  - apply Rltb_false in Hfire. repeat split; lra.
Qed.

Lemma collideWalls_bounds (st : State R) (b : Ball R) :
  2 * r b <= w st -> 2 * r b <= h st ->
  let b' := collideWalls st b in
  r b' = r b /\
  r b <= px b' <= w st - r b /\ r b <= py b' <= h st - r b.
Proof.
  intros Hw Hh b'. unfold b'. rewrite collideWalls_stages.
  destruct (wallLeft_bounds b) as (H1x & H1r & H1y).
  set (b1 := wallLeft b) in *.
  destruct (wallRight_bounds st b1) as (H2x & H2r & H2y); try lra.
  set (b2 := wallRight st b1) in *.
  destruct (wallTop_bounds b2) as (H3y & H3r & H3x).
  set (b3 := wallTop b2) in *.
  destruct (wallBottom_bounds st b3) as (H4y & H4r & H4x); lra.
Qed.

(** X12. In an arena at least as wide and as tall as the body,
    [collideWalls] returns the body inside the arena,
    r <= px <= w - r and r <= py <= h - r, wherever it was; a body that is
    inside is returned unchanged, so a second call changes nothing. *)
Theorem collideWalls_contains (st : State R) (b : Ball R) :
  2 * r b <= w st -> 2 * r b <= h st ->
  let b' := collideWalls st b in
  (r b <= px b' <= w st - r b /\ r b <= py b' <= h st - r b) /\
  inside st b' = true /\
  collideWalls st b' = b' /\
  (inside st b = true -> b' = b).
Proof.
  intros Hw Hh b'.
  destruct (collideWalls_bounds st b Hw Hh) as (Hr & Hx & Hy). fold b' in Hr, Hx, Hy.
  assert (Hin : inside st b' = true)
    by (apply inside_R; rewrite Hr; split; assumption).
  split; [split; assumption |].
  split; [exact Hin |].
  split; [apply collideWalls_inside; exact Hin |].
  intros Hb. apply collideWalls_inside. exact Hb.
Qed.

Lemma integrate_zero (G : R) (b : Ball R) : integrate G 0 b = b.
Proof.
  rewrite integrate_spec. real_ops. unfold AIR_DRAG. real_ops.
  replace (- (8 / 10000) * 0 * 1000) with 0 by ring. rewrite exp_0.
  destruct b as [x y u v rad mass]. cbn. f_equal; ring.
Qed.

Lemma subDtOf_zero : @subDtOf R _ 0 = 0.
Proof.
  unfold subDtOf, MAX_DT, SUBSTEPS_num, SUBSTEPS. real_ops.
  cbn [Z.of_nat Pos.of_succ_nat]. rewrite Rmin_right by lra. field.
Qed.

Lemma step_zero (G : R) (st : State R) (bs : list (Ball R)) :
  (forall b, In b bs -> inside st b = true) ->
  (forall p q a b,
     (p < q)%nat -> nth_error bs p = Some a -> nth_error bs q = Some b ->
     noContact a b = true) ->
  step G st 0 bs = bs.
Proof.
  intros Hin Hapart.
  change (step G st 0 bs) with (substep G st (subDtOf 0) bs).
  rewrite subDtOf_zero. unfold substep.
  assert (Hmap : map (collideWalls st) (map (integrate G 0) bs) = bs).
  { rewrite map_map. rewrite <- (map_id bs) at 2.
    apply map_ext_in. intros b Hb.
    rewrite integrate_zero. apply collideWalls_inside, Hin, Hb. }
  rewrite Hmap. apply collideAll_untouched. exact Hapart.
Qed.

(** X13. A frame for which no time has passed ([now] equal to [last])
    changes nothing when every body is inside the arena and no two bodies
    are in contact. *)
Theorem animate_still (G : R) (wd : World R) :
  (forall b, In b (wBalls wd) -> inside (wState wd) b = true) ->
  (forall p q a b,
     (p < q)%nat ->
     nth_error (wBalls wd) p = Some a -> nth_error (wBalls wd) q = Some b ->
     noContact a b = true) ->
  animate G (wLast wd) wd = wd.
Proof.
  intros Hin Hapart. unfold animate. real_ops.
  replace (Rmin (33 / 1000) ((wLast wd - wLast wd) / 1000)) with 0.
  - rewrite step_zero by assumption. destruct wd; reflexivity.
  - replace ((wLast wd - wLast wd) / 1000) with 0 by field.
    symmetry. apply Rmin_right. lra.
Qed.

(** X14. [step] caps the frame time: every dt of MAX_DT = 1/60 or more
    gives the step of dt = 1/60, and the sub-step never exceeds 1/60. *)
Theorem step_caps_dt (G : R) (st : State R) (dt : R) (bs : list (Ball R)) :
  subDtOf dt <= 1 / 60 /\
  (MAX_DT <= dt -> step G st dt bs = step G st MAX_DT bs).
Proof.
  split.
  - unfold subDtOf, MAX_DT, SUBSTEPS_num, SUBSTEPS. real_ops.
    cbn [Z.of_nat Pos.of_succ_nat].
    pose proof (Rmin_l (1 / 60) dt). lra.
  - intros Hbig. unfold step.
    replace (@Mmin R _ MAX_DT dt) with (@Mmin R _ MAX_DT MAX_DT);
      [reflexivity |].
    real_ops. rewrite (Rmin_left MAX_DT dt) by exact Hbig.
    apply Rmin_left. lra.
Qed.

End FrameReal.

(** ** The physics of a contact over the real numbers *)

Section ContactReal.

Local Open Scope R_scope.

Lemma collideBalls_contact (a b : Ball R) :
  0 < dist2 a b <= radii a b * radii a b ->
  let nx := fst (normal a b) in
  let ny := snd (normal a b) in
  collideBalls a b =
    exchange nx ny (fst (separate nx ny a b)) (snd (separate nx ny a b)) /\
  nx = (px b - px a) / sqrt (dist2 a b) /\
  ny = (py b - py a) / sqrt (dist2 a b) /\
  nx * nx + ny * ny = 1.
Proof.
  intros Hcontact nx ny.
  assert (Hn : normal a b = (nx, ny)) by (unfold nx, ny; now destruct (normal a b)).
  split.
  - rewrite collideBalls_stages.
    replace (noContact a b) with false
      by (symmetry; apply noContact_R; exact Hcontact).
    rewrite Hn. destruct (separate nx ny a b); reflexivity.
  - rewrite normal_R in Hn by apply Hcontact.
    inversion Hn as [[Hnx Hny]].
    repeat split. apply normal_unit. apply Hcontact.
Qed.

Lemma separate_gap (nx ny : R) (a b : Ball R) :
  m a + m b <> 0 ->
  let a1 := fst (separate nx ny a b) in
  let b1 := snd (separate nx ny a b) in
  px b1 - px a1 = px b - px a + nx * (radii a b - sqrt (dist2 a b)) /\
  py b1 - py a1 = py b - py a + ny * (radii a b - sqrt (dist2 a b)).
Proof.
  intros Htot a1 b1. unfold a1, b1, separate, radii. cbv zeta.
  fold (dist2 a b). real_ops. cbn [fst snd px py set_px set_py].
  split; field; exact Htot.
Qed.

Lemma separate_weighted (nx ny : R) (a b : Ball R) :
  m a + m b <> 0 ->
  weightedX (fst (separate nx ny a b)) (snd (separate nx ny a b))
    = weightedX a b /\
  weightedY (fst (separate nx ny a b)) (snd (separate nx ny a b))
    = weightedY a b.
Proof.
  intros Htot. unfold weightedX, weightedY, separate. cbv zeta.
  real_ops. cbn [fst snd px py m set_px set_py].
  split; field; exact Htot.
Qed.

Lemma exchange_momentum (nx ny : R) (a b : Ball R) :
  m a <> 0 -> m b <> 0 ->
  momentumX (fst (exchange nx ny a b)) (snd (exchange nx ny a b))
    = momentumX a b /\
  momentumY (fst (exchange nx ny a b)) (snd (exchange nx ny a b))
    = momentumY a b.
Proof.
  intros Hma Hmb. rewrite exchange_unfold. unfold momentumX, momentumY.
  case_if; cbn [fst snd vx vy m]; [split; reflexivity |].
  real_ops. split; field; split; assumption.
Qed.

Lemma exchange_weighted (nx ny : R) (a b : Ball R) :
  weightedX (fst (exchange nx ny a b)) (snd (exchange nx ny a b))
    = weightedX a b /\
  weightedY (fst (exchange nx ny a b)) (snd (exchange nx ny a b))
    = weightedY a b.
Proof.
  rewrite exchange_unfold. unfold weightedX, weightedY.
  case_if; split; reflexivity.
Qed.

(** X15. When [collideBalls] finds two bodies in contact and their masses
    do not sum to zero, it returns them with the centres exactly the sum of
    the radii apart: the circles touch, and the centres are no closer than
    before. *)
Theorem collideBalls_tangent (a b : Ball R) :
  0 < dist2 a b <= radii a b * radii a b ->
  m a + m b <> 0 ->
  let a' := fst (collideBalls a b) in
  let b' := snd (collideBalls a b) in
  dist2 a' b' = radii a b * radii a b /\
  radii a' b' = radii a b /\
  dist2 a b <= dist2 a' b' /\
  (0 <= radii a b -> sqrt (dist2 a' b') = radii a b).
Proof.
  intros Hcontact Htot a' b'.
  destruct (collideBalls_contact a b Hcontact) as (Hcall & Hnx & Hny & Hunit).
  set (nx := fst (normal a b)) in *. set (ny := snd (normal a b)) in *.
  destruct (separate_gap nx ny a b Htot) as [Hgx Hgy].
  set (a1 := fst (separate nx ny a b)) in *.
  set (b1 := snd (separate nx ny a b)) in *.
  destruct (exchange_position nx ny a1 b1) as (Hax & Hay & Hbx & Hby).
  rewrite <- Hcall in Hax, Hay, Hbx, Hby. fold a' b' in Hax, Hay, Hbx, Hby.
  set (d := sqrt (dist2 a b)) in *.
  assert (Hd : 0 < d) by (apply sqrt_lt_R0; apply Hcontact).
  assert (Hdx : px b' - px a' = nx * radii a b).
  { rewrite Hax, Hbx, Hgx, Hnx. field. lra. }
  assert (Hdy : py b' - py a' = ny * radii a b).
  { rewrite Hay, Hby, Hgy, Hny. field. lra. }
  assert (Hdist : dist2 a' b' = radii a b * radii a b).
  { unfold dist2 at 1. real_ops. rewrite Hdx, Hdy.
    replace (nx * radii a b * (nx * radii a b) + ny * radii a b * (ny * radii a b))
      with ((nx * nx + ny * ny) * (radii a b * radii a b)) by ring.
    rewrite Hunit. ring. }
  split; [exact Hdist |].
  split.
  { destruct (collideBalls_shape a b) as [Hsa Hsb].
    fold a' in Hsa. fold b' in Hsb. unfold shape in Hsa, Hsb.
    unfold radii. real_ops. inversion Hsa. inversion Hsb. congruence. }
  split; [rewrite Hdist; apply Hcontact |].
  intros Hrad. rewrite Hdist. apply sqrt_square. exact Hrad.
Qed.

(** X16. [collideBalls] conserves the momentum of the pair, component by
    component, whatever the two bodies, as long as neither mass is zero. *)
Theorem collideBalls_momentum (a b : Ball R) :
  m a <> 0 -> m b <> 0 ->
  let a' := fst (collideBalls a b) in
  let b' := snd (collideBalls a b) in
  momentumX a' b' = momentumX a b /\ momentumY a' b' = momentumY a b.
Proof.
  intros Hma Hmb a' b'. unfold a', b'. rewrite collideBalls_stages.
  destruct (noContact a b); [split; reflexivity |].
  destruct (normal a b) as [nx ny].
  assert (Hsep : momentumX (fst (separate nx ny a b)) (snd (separate nx ny a b))
                   = momentumX a b /\
                 momentumY (fst (separate nx ny a b)) (snd (separate nx ny a b))
                   = momentumY a b) by (split; reflexivity).
  assert (Hm : m (fst (separate nx ny a b)) = m a /\
               m (snd (separate nx ny a b)) = m b) by (split; reflexivity).
  destruct (separate nx ny a b) as [a1 b1]. cbn [fst snd] in Hsep, Hm.
  destruct Hm as [Hm1 Hm2].
  destruct (exchange_momentum nx ny a1 b1) as [Hx Hy];
    [congruence | congruence |].
  destruct Hsep as [Hsx Hsy]. split; congruence.
Qed.

(** X17. [collideBalls] keeps the centre of mass of the pair where it was:
    the mass-weighted sum of the positions is unchanged, whatever the two
    bodies, as long as the masses do not sum to zero. *)
Theorem collideBalls_centre_of_mass (a b : Ball R) :
  m a + m b <> 0 ->
  let a' := fst (collideBalls a b) in
  let b' := snd (collideBalls a b) in
  weightedX a' b' = weightedX a b /\ weightedY a' b' = weightedY a b.
Proof.
  intros Htot a' b'. unfold a', b'. rewrite collideBalls_stages.
  destruct (noContact a b); [split; reflexivity |].
  destruct (normal a b) as [nx ny].
  destruct (separate_weighted nx ny a b Htot) as [Hsx Hsy].
  destruct (separate nx ny a b) as [a1 b1]. cbn [fst snd] in Hsx, Hsy.
  destruct (exchange_weighted nx ny a1 b1) as [Hx Hy].
  split; congruence.
Qed.

End ContactReal.

Section ImpulseReal.

Local Open Scope R_scope.

(** The sum of the inverse masses, the divisor of both impulses. *)
Lemma inverse_masses_pos (ma mb : R) : 0 < ma -> 0 < mb -> 0 < 1 / ma + 1 / mb.
Proof.
  intros Ha Hb.
  assert (0 < / ma) by (apply Rinv_0_lt_compat; exact Ha).
  assert (0 < / mb) by (apply Rinv_0_lt_compat; exact Hb).
  lra.
Qed.

(** The clamp of the tangential impulse: it stays within the cone and
    between zero and the unclamped value. *)
Lemma friction_clamp (c jt : R) :
  0 <= c ->
  let jc := Rmin c (Rmax (- c) jt) in
  Rabs jc <= c /\ jc * (jc - 2 * jt) <= 0.
Proof.
  intros Hc jc.
  assert (Hcases : (jc = c /\ c <= jt) \/ (jc = - c /\ jt <= - c) \/
                   (jc = jt /\ - c <= jt <= c)).
  { unfold jc, Rmin, Rmax.
    destruct (Rle_dec (- c) jt); destruct (Rle_dec c _); lra. }
  destruct Hcases as [[-> Hjt] | [[-> Hjt] | [-> Hjt]]].
  - split; [rewrite Rabs_pos_eq; lra |].
    assert (0 <= c * (2 * jt - c)) by (apply Rmult_le_pos; lra). lra.
  - split; [rewrite Rabs_Ropp, Rabs_pos_eq; lra |].
    assert (0 <= c * (- c - 2 * jt)) by (apply Rmult_le_pos; lra). lra.
  - split; [apply Rabs_le; lra |].
    pose proof (Rle_0_sqr jt) as Hsq. unfold Rsqr in Hsq. lra.
Qed.

Lemma normalImpulse_R (nx ny : R) (a b : Ball R) :
  0 < m a -> 0 < m b ->
  normalImpulse nx ny a b * (1 / m a + 1 / m b)
    = - (1 + RESTITUTION) * velAlongNormal nx ny a b /\
  (velAlongNormal nx ny a b <= 0 -> 0 <= normalImpulse nx ny a b).
Proof.
  intros Hma Hmb.
  pose proof (inverse_masses_pos _ _ Hma Hmb) as Hinv.
  unfold normalImpulse. real_ops. split.
  - field. split; [| split]; lra.
  - intros Hvan. rewrite RESTITUTION_R. unfold Rdiv at 1.
    apply Rmult_le_pos; [nra |].
    left. apply Rinv_0_lt_compat. exact Hinv.
Qed.

Lemma tangentImpulse_R (nx ny : R) (a b : Ball R) :
  0 < m a -> 0 < m b ->
  let j := normalImpulse nx ny a b in
  let jt := - ((vx b - vx a) * - ny + (vy b - vy a) * nx)
            / (1 / m a + 1 / m b) in
  let jc := tangentImpulse nx ny a b in
  Rabs jc <= 2 / 100 * Rabs j /\ jc * (jc - 2 * jt) <= 0 /\
  jt * (1 / m a + 1 / m b) = - ((vx b - vx a) * - ny + (vy b - vy a) * nx).
Proof.
  intros Hma Hmb j jt jc.
  pose proof (inverse_masses_pos _ _ Hma Hmb) as Hinv.
  assert (Hc : 0 <= 2 / 100 * Rabs j)
    by (pose proof (Rabs_pos j); lra).
  destruct (friction_clamp (2 / 100 * Rabs j) jt Hc) as [Habs Hsign].
  assert (Hjc : jc = Rmin (2 / 100 * Rabs j) (Rmax (- (2 / 100 * Rabs j)) jt)).
  { unfold jc, tangentImpulse. cbv zeta. fold j. real_ops. fold jt.
    f_equal. f_equal. ring. }
  rewrite Hjc. split; [exact Habs |]. split; [exact Hsign |].
  unfold jt. field. split; [| split]; lra.
Qed.

(** The velocities [exchange] leaves when the bodies approach. *)
Lemma exchange_closing (nx ny : R) (a b : Ball R) :
  velAlongNormal nx ny a b <= 0 ->
  let j := normalImpulse nx ny a b in
  let jt := tangentImpulse nx ny a b in
  exchange nx ny a b =
    (mkBall (px a) (py a)
       (vx a - j * nx / m a - jt * - ny / m a)
       (vy a - j * ny / m a - jt * nx / m a) (r a) (m a),
     mkBall (px b) (py b)
       (vx b + j * nx / m b + jt * - ny / m b)
       (vy b + j * ny / m b + jt * nx / m b) (r b) (m b)).
Proof.
  intros Hvan j jt. rewrite exchange_unfold. real_ops.
  replace (Rltb 0 (velAlongNormal nx ny a b)) with false
    by (symmetry; apply Rltb_false; exact Hvan).
  reflexivity.
Qed.

Lemma exchange_parting (nx ny : R) (a b : Ball R) :
  0 < velAlongNormal nx ny a b -> exchange nx ny a b = (a, b).
Proof.
  intros Hvan. rewrite exchange_unfold. real_ops.
  replace (Rltb 0 (velAlongNormal nx ny a b)) with true
    by (symmetry; apply Rltb_true; exact Hvan).
  reflexivity.
Qed.

Lemma exchange_restitution (nx ny : R) (a b : Ball R) :
  nx * nx + ny * ny = 1 -> 0 < m a -> 0 < m b ->
  velAlongNormal nx ny a b <= 0 ->
  velAlongNormal nx ny (fst (exchange nx ny a b)) (snd (exchange nx ny a b))
    = - RESTITUTION * velAlongNormal nx ny a b.
Proof.
  intros Hunit Hma Hmb Hvan.
  rewrite (exchange_closing nx ny a b Hvan). cbn [fst snd].
  destruct (normalImpulse_R nx ny a b Hma Hmb) as [Hj _].
  set (j := normalImpulse nx ny a b) in *.
  set (jt := tangentImpulse nx ny a b) in *.
  unfold velAlongNormal in *. real_ops. cbn [vx vy].
  set (van := (vx b - vx a) * nx + (vy b - vy a) * ny) in *.
  transitivity (van + j * (1 / m a + 1 / m b) * (nx * nx + ny * ny)).
  - unfold van. field. split; lra.
  - rewrite Hunit, Hj. ring.
Qed.

Lemma exchange_energy (nx ny : R) (a b : Ball R) :
  nx * nx + ny * ny = 1 -> 0 < m a -> 0 < m b ->
  energy2 (fst (exchange nx ny a b)) (snd (exchange nx ny a b))
    <= energy2 a b.
Proof.
  intros Hunit Hma Hmb.
  destruct (Rlt_le_dec 0 (velAlongNormal nx ny a b)) as [Hpart | Hvan].
  { rewrite exchange_parting by exact Hpart. cbn [fst snd]. lra. }
  rewrite (exchange_closing nx ny a b Hvan). cbn [fst snd].
  destruct (normalImpulse_R nx ny a b Hma Hmb) as [Hj Hjpos].
  specialize (Hjpos Hvan).
  destruct (tangentImpulse_R nx ny a b Hma Hmb) as (_ & Hcone & Hjt).
  pose proof (inverse_masses_pos _ _ Hma Hmb) as Hinv.
  set (j := normalImpulse nx ny a b) in *.
  set (jc := tangentImpulse nx ny a b) in *.
  set (jt := - ((vx b - vx a) * - ny + (vy b - vy a) * nx)
             / (1 / m a + 1 / m b)) in *.
  set (inv := 1 / m a + 1 / m b) in *.
  unfold velAlongNormal in *. real_ops.
  set (van := (vx b - vx a) * nx + (vy b - vy a) * ny) in *.
  set (vt := (vx b - vx a) * - ny + (vy b - vy a) * nx) in *.
  unfold energy2. real_ops. cbn [vx vy m].
  assert (Hdiff :
    m a * ((vx a - j * nx / m a - jc * - ny / m a)
           * (vx a - j * nx / m a - jc * - ny / m a)
           + (vy a - j * ny / m a - jc * nx / m a)
             * (vy a - j * ny / m a - jc * nx / m a))
    + m b * ((vx b + j * nx / m b + jc * - ny / m b)
             * (vx b + j * nx / m b + jc * - ny / m b)
             + (vy b + j * ny / m b + jc * nx / m b)
               * (vy b + j * ny / m b + jc * nx / m b))
    = m a * (vx a * vx a + vy a * vy a) + m b * (vx b * vx b + vy b * vy b)
      + (2 * (j * van + jc * vt)
         + (j * j + jc * jc) * (nx * nx + ny * ny) * inv)).
  { unfold van, vt, inv. field. split; lra. }
  rewrite Hdiff, Hunit.
  assert (Hnormal : 2 * (j * van) + j * j * inv
                    = (1 - RESTITUTION) * (j * van)).
  { replace (j * j * inv) with (j * (j * inv)) by ring. rewrite Hj. ring. }
  assert (Htangent : 2 * (jc * vt) + jc * jc * inv
                     = inv * (jc * (jc - 2 * jt))).
  { replace vt with (- (jt * inv)) by (rewrite Hjt; ring). ring. }
  assert (Hn : (1 - RESTITUTION) * (j * van) <= 0).
  { rewrite RESTITUTION_R.
    assert (j * van <= 0) by nra. lra. }
  assert (Ht : inv * (jc * (jc - 2 * jt)) <= 0).
  { assert (0 <= inv * - (jc * (jc - 2 * jt)))
      by (apply Rmult_le_pos; lra).
    lra. }
  replace (2 * (j * van + jc * vt) + (j * j + jc * jc) * 1 * inv)
    with ((2 * (j * van) + j * j * inv) + (2 * (jc * vt) + jc * jc * inv))
    by ring.
  rewrite Hnormal, Htangent. lra.
Qed.

End ImpulseReal.

Section CollisionLaws.

Local Open Scope R_scope.

(** X18. Restitution.  For two bodies in contact, of positive mass, with n
    the unit normal from a to b: if they approach along n, [collideBalls]
    returns them with the relative velocity along n reversed and scaled by
    RESTITUTION; if they part already, it leaves both velocities alone.
    Either way they do not approach along n after the call. *)
Theorem collideBalls_restitution (a b : Ball R) :
  0 < dist2 a b <= radii a b * radii a b ->
  0 < m a -> 0 < m b ->
  let nx := fst (normal a b) in
  let ny := snd (normal a b) in
  let a' := fst (collideBalls a b) in
  let b' := snd (collideBalls a b) in
  let van := velAlongNormal nx ny a b in
  let van' := velAlongNormal nx ny a' b' in
  (van <= 0 -> van' = - RESTITUTION * van) /\
  (0 < van ->
   vx a' = vx a /\ vy a' = vy a /\ vx b' = vx b /\ vy b' = vy b) /\
  0 <= van'.
Proof.
  intros Hcontact Hma Hmb nx ny a' b' van van'.
  destruct (collideBalls_contact a b Hcontact) as (Hcall & _ & _ & Hunit).
  fold nx ny in Hcall, Hunit.
  set (a1 := fst (separate nx ny a b)) in *.
  set (b1 := snd (separate nx ny a b)) in *.
  assert (Hvan1 : velAlongNormal nx ny a1 b1 = van) by reflexivity.
  assert (Hclosing : van <= 0 -> van' = - RESTITUTION * van).
  { intros Hvan. unfold van', a', b'. rewrite Hcall.
    exact (exchange_restitution nx ny a1 b1 Hunit Hma Hmb Hvan). }
  assert (Hparting : 0 < van -> collideBalls a b = (a1, b1)).
  { intros Hvan. rewrite Hcall. apply exchange_parting.
    rewrite Hvan1. exact Hvan. }
  split; [exact Hclosing |].
  split.
  - intros Hvan. unfold a', b'. rewrite (Hparting Hvan).
    repeat split; reflexivity.
  - destruct (Rlt_le_dec 0 van) as [Hvan | Hvan].
    + unfold van', a', b'. rewrite (Hparting Hvan). cbn [fst snd].
      rewrite Hvan1. lra.
    + rewrite (Hclosing Hvan), RESTITUTION_R. nra.
Qed.

(** X19. Friction cone.  For two bodies in contact, of positive mass, that
    approach along the normal n, [collideBalls] changes the velocities by
    one impulse j along n and one impulse jt along the tangent (-ny, nx),
    each divided by the mass of the body and applied with opposite signs to
    a and b, where j >= 0 and |jt| <= 0.02 * j. *)
Theorem collideBalls_friction_cone (a b : Ball R) :
  0 < dist2 a b <= radii a b * radii a b ->
  0 < m a -> 0 < m b ->
  let nx := fst (normal a b) in
  let ny := snd (normal a b) in
  let a' := fst (collideBalls a b) in
  let b' := snd (collideBalls a b) in
  let j := normalImpulse nx ny a b in
  let jt := tangentImpulse nx ny a b in
  velAlongNormal nx ny a b <= 0 ->
  0 <= j /\ Rabs jt <= 2 / 100 * j /\
  vx a' = vx a - (j * nx + jt * - ny) / m a /\
  vy a' = vy a - (j * ny + jt * nx) / m a /\
  vx b' = vx b + (j * nx + jt * - ny) / m b /\
  vy b' = vy b + (j * ny + jt * nx) / m b.
Proof.
  intros Hcontact Hma Hmb nx ny a' b' j jt Hvan.
  destruct (collideBalls_contact a b Hcontact) as (Hcall & _).
  fold nx ny in Hcall.
  set (a1 := fst (separate nx ny a b)) in *.
  set (b1 := snd (separate nx ny a b)) in *.
  assert (Hvan1 : velAlongNormal nx ny a1 b1 <= 0) by exact Hvan.
  rewrite (exchange_closing nx ny a1 b1 Hvan1) in Hcall.
  change (normalImpulse nx ny a1 b1) with j in Hcall.
  change (tangentImpulse nx ny a1 b1) with jt in Hcall.
  destruct (normalImpulse_R nx ny a b Hma Hmb) as [_ Hjpos].
  specialize (Hjpos Hvan). fold j in Hjpos.
  destruct (tangentImpulse_R nx ny a b Hma Hmb) as (Hcone & _).
  fold j jt in Hcone. rewrite (Rabs_pos_eq j Hjpos) in Hcone.
  split; [exact Hjpos |]. split; [exact Hcone |].
  unfold a', b'. rewrite Hcall. cbn [fst snd vx vy].
  change (m a1) with (m a). change (m b1) with (m b).
  change (vx a1) with (vx a). change (vy a1) with (vy a).
  change (vx b1) with (vx b). change (vy b1) with (vy b).
  repeat split; field; lra.
Qed.

(** X20. [collideBalls] never adds kinetic energy: for any two bodies of
    positive mass, in contact or not, the sum of m * |v|^2 over the two
    bodies after the call is at most the sum before it. *)
Theorem collideBalls_energy (a b : Ball R) :
  0 < m a -> 0 < m b ->
  energy2 (fst (collideBalls a b)) (snd (collideBalls a b)) <= energy2 a b.
Proof.
  intros Hma Hmb.
  destruct (noContact a b) eqn:Hguard.
  - rewrite collideBalls_stages, Hguard. cbn [fst snd]. lra.
  - apply noContact_R in Hguard.
    destruct (collideBalls_contact a b Hguard) as (Hcall & _ & _ & Hunit).
    rewrite Hcall.
    set (nx := fst (normal a b)) in *. set (ny := snd (normal a b)) in *.
    set (a1 := fst (separate nx ny a b)). set (b1 := snd (separate nx ny a b)).
    change (energy2 a b) with (energy2 a1 b1).
    apply exchange_energy; assumption.
Qed.

End CollisionLaws.

(** ** The spawned bodies *)

Section SpawnGeneric.

Context {F : Type} `{JSNum F}.
Variable G : F.

Lemma pushBall_ends {A : Type} (b : A) (bs : list A) :
  exists rest, pushBall b bs = rest ++ [b].
Proof.
  destruct bs as [| x t].
  - exists []. reflexivity.
  - unfold pushBall. case_if.
    + exists t. reflexivity.
    + exists (x :: t). reflexivity.
Qed.

Lemma run_keeps_no_drag (evs : list (Event F)) :
  forall wd : World F,
    Forall notMouseDown evs -> wDragStart wd = None ->
    wDragStart (run G evs wd) = None.
Proof.
  unfold run.
  induction evs as [| ev evs IH]; intros wd Hevs Hnone; cbn [fold_left];
    [exact Hnone |].
  inversion Hevs as [| ? ? Hev Hrest]; subst.
  apply IH; [exact Hrest |].
  destruct ev; cbn in Hev |- *; try assumption; try reflexivity.
  destruct Hev.
Qed.

(** X21. A mouse up uses up the pending drag: after it no drag is
    pending, none is until the next mouse down, whatever other events come
    in between, and the body a further mouse up then appends to the
    population has zero velocity. *)
Theorem mouseup_consumes_drag (wd : World F) (evs : list (Event F))
    (now ex ey u1 u2 u3 now' ex' ey' u1' u2' u3' : F) :
  Forall notMouseDown evs ->
  let wd1 := handle G wd (MouseUp now ex ey u1 u2 u3) in
  let wd2 := run G evs wd1 in
  let wd3 := handle G wd2 (MouseUp now' ex' ey' u1' u2' u3') in
  wDragStart wd1 = None /\ wDragStart wd2 = None /\
  exists rest b,
    wBalls wd3 = rest ++ [b] /\ vx b = ofZ 0 /\ vy b = ofZ 0.
Proof.
  intros Hevs wd1 wd2 wd3.
  assert (H1 : wDragStart wd1 = None) by reflexivity.
  assert (H2 : wDragStart wd2 = None)
    by (apply run_keeps_no_drag; assumption).
  split; [exact H1 |]. split; [exact H2 |].
  unfold wd3. cbn [handle mouseup wBalls]. rewrite H2.
  destruct (pushBall_ends
              (releasedBall (wState wd2) ex' ey' now' None u1' u2' u3')
              (wBalls wd2)) as [rest Hrest].
  exists rest. eexists. split; [exact Hrest |].
  split; reflexivity.
Qed.

End SpawnGeneric.

Section SpawnReal.

Local Open Scope R_scope.

(** [Math.round] of a number in [72, 94) is one of the integers 72..94. *)
Lemma Rround_radius (x : R) :
  72 <= x < 94 ->
  exists z : Z, Rround x = IZR z /\ (72 <= z <= 94)%Z /\
                72 <= Rround x <= 94.
Proof.
  intros [Hlo Hhi]. unfold Rround.
  destruct (base_Int_part (x + / 2)) as [Hle Hgt].
  set (z := Int_part (x + / 2)) in *.
  assert (Hz1 : (71 < z)%Z) by (apply lt_IZR; lra).
  assert (Hz2 : (z < 95)%Z) by (apply lt_IZR; lra).
  exists z. split; [reflexivity |]. split; [lia |].
  split; apply IZR_le; lia.
Qed.

Lemma radius_draw (u : R) :
  0 <= u < 1 ->
  exists z : Z, Rround (rand u 72 94) = IZR z /\ (72 <= z <= 94)%Z /\
                72 <= Rround (rand u 72 94) <= 94.
Proof.
  intros Hu. apply Rround_radius. unfold rand. real_ops. lra.
Qed.

(** X22. A scheduled spawn, with draws in [0, 1): the radius is an
    integer from 72 to 94 and the mass pi * r^2 is positive; the body starts
    wholly above the canvas, its lowest point between 10 and 60 above the
    top edge, both included; in an arena at least 204 wide it starts at
    least 8 from both side walls; its velocity has -40 <= vx <= 40 and
    -20 <= vy <= 10. *)
Theorem randomBall_spec (st : State R) (u1 u2 u3 u4 u5 : R) :
  0 <= u1 < 1 -> 0 <= u2 < 1 -> 0 <= u3 < 1 -> 0 <= u4 < 1 -> 0 <= u5 < 1 ->
  let b := randomBall st u1 u2 u3 u4 u5 in
  (exists z : Z, r b = IZR z /\ (72 <= z <= 94)%Z) /\
  (m b = PI * r b * r b /\ 0 < m b) /\
  - 60 <= py b + r b <= - 10 /\
  (204 <= w st -> 8 <= px b - r b /\ px b + r b <= w st - 8) /\
  (- 40 <= vx b <= 40 /\ - 20 <= vy b <= 10).
Proof.
  intros H1 H2 H3 H4 H5 b.
  destruct (radius_draw u1 H1) as (z & Hz & Hzr & Hr).
  assert (Hrb : r b = Rround (rand u1 72 94)) by reflexivity.
  assert (Hpy : py b = - r b - (u3 * (60 - 10) + 10)) by reflexivity.
  assert (Hpx : px b = u2 * (w st - r b - 8 - (r b + 8)) + (r b + 8))
    by reflexivity.
  assert (Hvx : vx b = u4 * (40 - - 40) + - 40) by reflexivity.
  assert (Hvy : vy b = u5 * (10 - - 20) + - 20) by reflexivity.
  rewrite <- Hrb in Hr, Hz.
  split; [exists z; split; assumption |].
  split.
  { split; [reflexivity |].
    change (0 < PI * r b * r b).
    pose proof PI_RGT_0.
    apply Rmult_lt_0_compat; [apply Rmult_lt_0_compat |]; lra. }
  split; [rewrite Hpy; lra |].
  split; [| rewrite Hvx, Hvy; lra].
  intros Hw. rewrite Hpx.
  assert (Hspan : 0 <= w st - r b - 8 - (r b + 8)) by lra.
  assert (0 <= u2 * (w st - r b - 8 - (r b + 8)))
    by (apply Rmult_le_pos; lra).
  assert (u2 * (w st - r b - 8 - (r b + 8))
          <= 1 * (w st - r b - 8 - (r b + 8)))
    by (apply Rmult_le_compat_r; lra).
  lra.
Qed.

Lemma flick_bound (delta elapsed : R) :
  let dt := Rmax 16 elapsed / 1000 in
  Rabs (delta / dt * (25 / 100)) <= 125 / 8 * Rabs delta.
Proof.
  intros dt. unfold dt.
  pose proof (Rmax_l 16 elapsed) as Hfloor.
  set (D := Rmax 16 elapsed) in *.
  replace (delta / (D / 1000) * (25 / 100)) with (delta * (250 / D))
    by (field; lra).
  assert (Hpos : 0 < 250 / D)
    by (apply Rdiv_lt_0_compat; lra).
  assert (Hle : 250 / D <= 125 / 8).
  { apply Rmult_le_reg_r with (r := D); [lra |].
    replace (250 / D * D) with 250 by (field; lra). lra. }
  rewrite Rabs_mult, (Rabs_pos_eq (250 / D)) by lra.
  pose proof (Rabs_pos delta).
  rewrite (Rmult_comm (125 / 8)). apply Rmult_le_compat_l; lra.
Qed.

(** X23. A pointer-up spawn, with draws in [0, 1): the radius is an
    integer from 72 to 94; the body is placed within 0.2 of the pointer
    horizontally and never reaches the floor, py + r <= h - 0.8; with no
    drag pending it is at rest; with a drag pending each velocity component
    is at most 15.625 times the distance dragged on that axis in absolute
    value (the duration is floored at 16 ms), and is zero when the pointer
    did not move on that axis. *)
Theorem releasedBall_spec (st : State R) (ex ey now : R)
    (d : option (Drag R)) (u1 u2 u3 : R) :
  0 <= u1 < 1 -> 0 <= u2 < 1 -> 0 <= u3 < 1 ->
  let b := releasedBall st ex ey now d u1 u2 u3 in
  (exists z : Z, r b = IZR z /\ (72 <= z <= 94)%Z) /\
  Rabs (px b - ex) <= 2 / 10 /\
  (py b + r b <= h st - 8 / 10 /\ py b < ey + 2 / 10) /\
  (d = None -> vx b = 0 /\ vy b = 0) /\
  (forall ds, d = Some ds ->
     Rabs (vx b) <= 125 / 8 * Rabs (ex - drag_x ds) /\
     Rabs (vy b) <= 125 / 8 * Rabs (ey - drag_y ds) /\
     (ex = drag_x ds -> vx b = 0) /\ (ey = drag_y ds -> vy b = 0)).
Proof.
  intros H1 H2 H3 b.
  destruct (radius_draw u1 H1) as (z & Hz & Hzr & Hr).
  assert (Hrb : r b = Rround (rand u1 72 94))
    by (unfold b, releasedBall; destruct d; reflexivity).
  assert (Hpx : px b = ex + (u2 * (2 / 10 - - (2 / 10)) + - (2 / 10)))
    by (unfold b, releasedBall; destruct d; reflexivity).
  assert (Hpy : py b = Rmin ey (h st - r b - 1)
                       + (u3 * (2 / 10 - - (2 / 10)) + - (2 / 10)))
    by (unfold b, releasedBall; destruct d; reflexivity).
  rewrite <- Hrb in Hz.
  split; [exists z; split; assumption |].
  split; [rewrite Hpx; apply Rabs_le; lra |].
  split.
  { pose proof (Rmin_l ey (h st - r b - 1)).
    pose proof (Rmin_r ey (h st - r b - 1)).
    rewrite Hpy. lra. }
  split.
  { intros ->. split; reflexivity. }
  intros ds ->.
  assert (Hvx : vx b = (ex - drag_x ds)
                       / (Rmax 16 (now - drag_t ds) / 1000) * (25 / 100))
    by reflexivity.
  assert (Hvy : vy b = (ey - drag_y ds)
                       / (Rmax 16 (now - drag_t ds) / 1000) * (25 / 100))
    by reflexivity.
  rewrite Hvx, Hvy.
  split; [apply flick_bound |]. split; [apply flick_bound |].
  split; intros ->; unfold Rdiv; ring.
Qed.

End SpawnReal.

(** ** Concrete runs of the rest of the page *)

Section MoreRuns.

Local Open Scope R_scope.

Lemma noContact_far (a b : Ball R) :
  radii a b * radii a b < dist2 a b -> noContact a b = true.
Proof.
  intros Hfar. unfold noContact. fold (dist2 a b) (radii a b). real_ops.
  apply orb_true_iff. right. apply Rltb_true. exact Hfar.
Qed.

Lemma sample_apart :
  forall p q a b,
    (p < q)%nat ->
    nth_error [restingBall; cornerBall] p = Some a ->
    nth_error [restingBall; cornerBall] q = Some b ->
    noContact a b = true.
Proof.
  intros p q a b Hpq Hp Hq.
  destruct p as [| [| p]]; destruct q as [| [| [| q]]]; cbn in Hp, Hq;
    try lia; try discriminate.
  inversion Hp. inversion Hq. subst.
  apply noContact_far. unfold dist2, radii. cbn. lra.
Qed.

Lemma sample_inside :
  forall b, In b [restingBall; cornerBall] -> inside arena b = true.
Proof.
  intros b [<- | [<- | []]]; apply inside_R; cbn; lra.
Qed.

Lemma collideAll_apart_witness :
  collideAll [restingBall; cornerBall] = [restingBall; cornerBall].
Proof. apply (collideAll_apart [restingBall; cornerBall] sample_apart). Defined.

Lemma nav_toggles_witness :
  (0 < length (itemsNavBar sampleNav))%nat /\
  nth 0 (itemsNavBar sampleNav) false = false /\
  clickedCount (handleClicked 0 sampleNav) = 1%nat /\
  clickedCount (handleClicked 0 (handleClicked 0 sampleNav)) = 0%nat.
Proof.
  assert (Hi : (0 < length (itemsNavBar sampleNav))%nat) by (cbn; lia).
  assert (Hoff : nth 0 (itemsNavBar sampleNav) false = false) by reflexivity.
  split; [exact Hi |]. split; [exact Hoff |].
  destruct (nav_toggles 0 sampleNav Hi Hoff) as (_ & Hone & Hnone & _).
  split; assumption.
Defined.

Lemma rand_range_witness :
  0 <= 1 / 2 < 1 /\ 72 <= 94 /\ 72 <= rand (1 / 2) 72 94 <= 94.
Proof.
  assert (Hu : 0 <= 1 / 2 < 1) by lra.
  assert (Hle : 72 <= 94) by lra.
  split; [exact Hu |]. split; [exact Hle |].
  destruct (rand_range (1 / 2) 72 94 Hu Hle) as (Hin & _). exact Hin.
Defined.

Lemma clamp_spec_witness : 0 <= 3 /\ clamp 5 0 3 = 3.
Proof.
  assert (Hab : 0 <= 3) by lra.
  split; [exact Hab |].
  destruct (clamp_spec 5 0 3) as [Hordered _].
  destruct (Hordered Hab) as (_ & _ & _ & Habove & _).
  apply Habove. lra.
Defined.

Lemma integrate_slows_witness :
  0 < 1 / 60 /\
  Rabs (vx (integrate 1600 (1 / 60) leftBall)) < Rabs (vx leftBall).
Proof.
  assert (Hdt : 0 < 1 / 60) by lra.
  split; [exact Hdt |].
  destruct (integrate_slows 1600 (1 / 60) leftBall Hdt)
    as (_ & _ & _ & Hstrict & _).
  apply Hstrict. cbn. lra.
Defined.

Lemma integrate_terminal_witness :
  0 <= 1600 /\ 0 < 1 / 60 /\
  vy (integrate 1600 (1 / 60) restingBall)
    <= 1600 * (1 / 60) * dragOf (1 / 60) / (1 - dragOf (1 / 60)).
Proof.
  assert (HG : 0 <= 1600) by lra.
  assert (Hdt : 0 < 1 / 60) by lra.
  split; [exact HG |]. split; [exact Hdt |].
  assert (Hvy : vy restingBall
                <= 1600 * (1 / 60) * dragOf (1 / 60) / (1 - dragOf (1 / 60))).
  { destruct (drag_range (1 / 60) Hdt) as [Hd0 Hd1].
    change (vy restingBall) with 0.
    unfold Rdiv at 2. apply Rmult_le_pos.
    - apply Rmult_le_pos; lra.
    - left. apply Rinv_0_lt_compat. lra. }
  destruct (integrate_terminal 1600 (1 / 60) restingBall HG Hdt Hvy)
    as [Hle _].
  exact Hle.
Defined.

Lemma collideWalls_contains_witness :
  2 * r crossingBall <= w arena /\ 2 * r crossingBall <= h arena /\
  inside arena (collideWalls arena crossingBall) = true.
Proof.
  assert (Hw : 2 * r crossingBall <= w arena) by (cbn; lra).
  assert (Hh : 2 * r crossingBall <= h arena) by (cbn; lra).
  split; [exact Hw |]. split; [exact Hh |].
  destruct (collideWalls_contains arena crossingBall Hw Hh) as (_ & Hin & _).
  exact Hin.
Defined.

Lemma animate_still_witness :
  animate 1600 (wLast sampleWorld) sampleWorld = sampleWorld.
Proof.
  apply (animate_still 1600 sampleWorld sample_inside sample_apart).
Defined.

Lemma step_caps_dt_witness :
  MAX_DT <= 1 /\
  step 1600 arena 1 [restingBall; cornerBall]
    = step 1600 arena MAX_DT [restingBall; cornerBall].
Proof.
  assert (Hbig : @MAX_DT R _ <= 1) by (unfold MAX_DT; real_ops; lra).
  split; [exact Hbig |].
  destruct (step_caps_dt 1600 arena 1 [restingBall; cornerBall]) as [_ Hcap].
  exact (Hcap Hbig).
Defined.

Lemma headOn_masses : 0 < m leftBall /\ 0 < m rightBall.
Proof. cbn. pose proof PI_RGT_0. split; lra. Qed.

Lemma headOn_overlap :
  0 < dist2 leftBall rightBall
    <= radii leftBall rightBall * radii leftBall rightBall.
Proof. unfold dist2, radii. cbn. lra. Qed.

Lemma collideBalls_tangent_witness :
  m leftBall + m rightBall <> 0 /\
  dist2 (fst (collideBalls leftBall rightBall))
        (snd (collideBalls leftBall rightBall))
    = radii leftBall rightBall * radii leftBall rightBall.
Proof.
  destruct headOn_masses as [Hma Hmb].
  assert (Htot : m leftBall + m rightBall <> 0) by lra.
  split; [exact Htot |].
  destruct (collideBalls_tangent leftBall rightBall headOn_overlap Htot)
    as (Hdist & _).
  exact Hdist.
Defined.

Lemma collideBalls_momentum_witness :
  m leftBall <> 0 /\ m rightBall <> 0 /\
  momentumX (fst (collideBalls leftBall rightBall))
            (snd (collideBalls leftBall rightBall))
    = momentumX leftBall rightBall.
Proof.
  destruct headOn_masses as [Hma Hmb].
  assert (Ha : m leftBall <> 0) by lra.
  assert (Hb : m rightBall <> 0) by lra.
  split; [exact Ha |]. split; [exact Hb |].
  destruct (collideBalls_momentum leftBall rightBall Ha Hb) as [Hx _].
  exact Hx.
Defined.

Lemma collideBalls_centre_of_mass_witness :
  m leftBall + m rightBall <> 0 /\
  weightedX (fst (collideBalls leftBall rightBall))
            (snd (collideBalls leftBall rightBall))
    = weightedX leftBall rightBall.
Proof.
  destruct headOn_masses as [Hma Hmb].
  assert (Htot : m leftBall + m rightBall <> 0) by lra.
  split; [exact Htot |].
  destruct (collideBalls_centre_of_mass leftBall rightBall Htot) as [Hx _].
  exact Hx.
Defined.

Lemma headOn_sample_normal : normal leftBall rightBall = (1, 0).
Proof. apply headOn_normal; cbn; lra. Qed.

Lemma headOn_sample_closing :
  velAlongNormal (fst (normal leftBall rightBall))
                 (snd (normal leftBall rightBall)) leftBall rightBall <= 0.
Proof.
  rewrite headOn_sample_normal. cbn [fst snd].
  unfold velAlongNormal. cbn. lra.
Qed.

Lemma collideBalls_restitution_witness :
  0 <= velAlongNormal (fst (normal leftBall rightBall))
                      (snd (normal leftBall rightBall))
                      (fst (collideBalls leftBall rightBall))
                      (snd (collideBalls leftBall rightBall)).
Proof.
  destruct headOn_masses as [Hma Hmb].
  destruct (collideBalls_restitution leftBall rightBall headOn_overlap Hma Hmb)
    as (_ & _ & Hparting).
  exact Hparting.
Defined.

Lemma collideBalls_friction_cone_witness :
  0 <= normalImpulse (fst (normal leftBall rightBall))
                     (snd (normal leftBall rightBall)) leftBall rightBall.
Proof.
  destruct headOn_masses as [Hma Hmb].
  destruct (collideBalls_friction_cone leftBall rightBall headOn_overlap
              Hma Hmb headOn_sample_closing) as (Hj & _).
  exact Hj.
Defined.

Lemma collideBalls_energy_witness :
  energy2 (fst (collideBalls leftBall rightBall))
          (snd (collideBalls leftBall rightBall))
    <= energy2 leftBall rightBall.
Proof.
  destruct headOn_masses as [Hma Hmb].
  exact (collideBalls_energy leftBall rightBall Hma Hmb).
Defined.

Lemma sampleEvents_no_mousedown : Forall notMouseDown sampleEvents.
Proof. repeat constructor. Qed.

Lemma mouseup_consumes_drag_witness :
  wDragStart
    (run 1600 sampleEvents
       (handle 1600 sampleWorld (MouseUp 7 300 200 0 0 0))) = None.
Proof.
  destruct (mouseup_consumes_drag 1600 sampleWorld sampleEvents
              7 300 200 0 0 0 8 310 210 0 0 0 sampleEvents_no_mousedown)
    as (_ & Hnone & _).
  exact Hnone.
Defined.

Lemma randomBall_spec_witness :
  0 <= 1 / 2 < 1 /\
  - 60 <= py (randomBall arena (1 / 2) (1 / 2) (1 / 2) (1 / 2) (1 / 2))
         + r (randomBall arena (1 / 2) (1 / 2) (1 / 2) (1 / 2) (1 / 2))
       <= - 10.
Proof.
  assert (Hu : 0 <= 1 / 2 < 1) by lra.
  split; [exact Hu |].
  destruct (randomBall_spec arena (1 / 2) (1 / 2) (1 / 2) (1 / 2) (1 / 2)
              Hu Hu Hu Hu Hu) as (_ & _ & Habove & _).
  exact Habove.
Defined.

Lemma releasedBall_spec_witness :
  0 <= 1 / 2 < 1 /\
  py (releasedBall arena 300 590 90 (Some (mkDrag 10 250 200))
        (1 / 2) (1 / 2) (1 / 2))
  + r (releasedBall arena 300 590 90 (Some (mkDrag 10 250 200))
         (1 / 2) (1 / 2) (1 / 2))
    <= h arena - 8 / 10.
Proof.
  assert (Hu : 0 <= 1 / 2 < 1) by lra.
  split; [exact Hu |].
  destruct (releasedBall_spec arena 300 590 90 (Some (mkDrag 10 250 200))
              (1 / 2) (1 / 2) (1 / 2) Hu Hu Hu)
    as (_ & _ & (Hfloor & _) & _).
  exact Hfloor.
Defined.

End MoreRuns.

(** ** A lone body over many frames *)

Section LoneBody.

Local Open Scope R_scope.

Variable G : R.
Variable st : State R.

Lemma lone_steps_inside (dts : list R) :
  forall b : Ball R,
    2 * r b <= w st -> 2 * r b <= h st -> dts <> [] ->
    exists b',
      fold_left (fun bs dt => step G st dt bs) dts [b] = [b'] /\
      r b' = r b /\ inside st b' = true.
Proof.
  induction dts as [| dt dts IH]; intros b Hw Hh Hne; [now elim Hne |].
  cbn [fold_left]. rewrite step_single.
  set (b1 := collideWalls st (integrate G (subDtOf dt) b)).
  destruct (collideWalls_bounds st (integrate G (subDtOf dt) b) Hw Hh)
    as (Hr & Hx & Hy).
  fold b1 in Hr, Hx, Hy.
  change (r (integrate G (subDtOf dt) b)) with (r b) in Hr, Hx, Hy.
  destruct dts as [| dt' dts'].
  - exists b1. cbn [fold_left]. split; [reflexivity |].
    split; [exact Hr |]. apply inside_R. rewrite Hr. split; assumption.
  - destruct (IH b1) as (b' & Hrun & Hr' & Hin); try (rewrite Hr; assumption).
    + discriminate.
    + exists b'. split; [exact Hrun |]. split; [congruence | exact Hin].
Qed.

(** X24. A body alone in an arena at least as wide and as tall as itself
    is inside the arena after every frame, wherever it started, whatever
    its velocity, the gravity and the frame times. *)
Theorem lone_body_stays_inside (b : Ball R) (dts : list R) :
  2 * r b <= w st -> 2 * r b <= h st -> dts <> [] ->
  exists b',
    fold_left (fun bs dt => step G st dt bs) dts [b] = [b'] /\
    r b' <= px b' <= w st - r b' /\ r b' <= py b' <= h st - r b'.
Proof.
  intros Hw Hh Hne.
  destruct (lone_steps_inside dts b Hw Hh Hne) as (b' & Hrun & _ & Hin).
  exists b'. split; [exact Hrun |]. apply inside_R. exact Hin.
Qed.

End LoneBody.

Section ResizeReal.

Local Open Scope R_scope.

(** X25. [resize] sets the arena to the client size of the canvas and
    leaves the bodies, the pending drag and the clock alone; the pixel
    ratio it records is never below 1: it is the ratio of the device when
    that is 1 or more, and 1 when it is smaller, zero or not defined. *)
Theorem resize_spec (cw ch : R) (ratio : option R) (wd : World R) :
  let wd' := resize cw ch ratio wd in
  (w (wState wd') = cw /\ h (wState wd') = ch) /\
  (wBalls wd' = wBalls wd /\ wDragStart wd' = wDragStart wd /\
   wLast wd' = wLast wd) /\
  1 <= wDpr wd' /\
  (forall d, ratio = Some d -> 1 <= d -> wDpr wd' = d) /\
  (forall d, ratio = Some d -> d <= 1 -> wDpr wd' = 1) /\
  (ratio = None -> wDpr wd' = 1).
Proof.
  intros wd'. split; [split; reflexivity |].
  split; [repeat split |].
  unfold wd', resize, pixelRatio. cbn [wDpr]. real_ops.
  split; [apply Rmax_l |].
  split; [| split].
  - intros d -> Hd. unfold Reqb. destruct (Req_dec_T d 0); cbn [negb].
    + lra.
    + apply Rmax_right. exact Hd.
  - intros d -> Hd. unfold Reqb. destruct (Req_dec_T d 0); cbn [negb].
    + apply Rmax_left. lra.
    + apply Rmax_left. exact Hd.
  - intros ->. apply Rmax_left. lra.
Qed.

End ResizeReal.

(** ** Sliding to a stop *)

Section Sliding.

Local Open Scope R_scope.

Variable G : R.
Variable st : State R.

Lemma side_walls_frame (b : Ball R) :
  (py (wallLeft b) = py b /\ vy (wallLeft b) = vy b /\
   r (wallLeft b) = r b) /\
  (py (wallRight st b) = py b /\ vy (wallRight st b) = vy b /\
   r (wallRight st b) = r b).
Proof.
  unfold wallLeft, wallRight. split; case_if; repeat split; reflexivity.
Qed.

Lemma groundFriction_R (b : Ball R) :
  let b' := groundFriction b in
  py b' = py b /\ vy b' = vy b /\ r b' = r b /\
  (vx b' = 0 \/ 2 <= Rabs (vx b')) /\
  Rabs (vx b') <= (1 - 8 / 1000) * Rabs (vx b).
Proof.
  unfold groundFriction, FRICTION. real_ops. cbn [vx set_vx].
  assert (Habs : Rabs (vx b * (1 - 8 / 1000))
                 = (1 - 8 / 1000) * Rabs (vx b)).
  { rewrite Rabs_mult, (Rabs_pos_eq (1 - 8 / 1000)) by lra. ring. }
  pose proof (Rabs_pos (vx b)) as Hpos.
  destruct (Rltb (Rabs (vx b * (1 - 8 / 1000))) 2) eqn:Hstop;
    cbn [px py vx vy r set_vx]; repeat split.
  - left. reflexivity.
  - rewrite Rabs_R0. lra.
  - right. apply Rltb_false in Hstop. exact Hstop.
  - rewrite Habs. lra.
Qed.

Lemma wallBottom_grounded (b : Ball R) :
  h st < py b + r b -> Rabs (vy b) * (84 / 100) < 50 ->
  let b' := wallBottom st b in
  py b' = h st - r b /\ vy b' = - vy b * (84 / 100) /\ r b' = r b /\
  (vx b' = 0 \/ 2 <= Rabs (vx b')) /\
  Rabs (vx b') <= (1 - 8 / 1000) * Rabs (vx b).
Proof.
  intros Hfire Hslow b'. unfold b'.
  rewrite wallBottom_fired by (apply Rltb_true; exact Hfire).
  assert (Hground : onGround st (floorBounce st b) = true).
  { unfold onGround, floorBounce, RESTITUTION. real_ops.
    cbn [py vy r set_py set_vy].
    apply andb_true_iff. split; apply Rltb_true.
    - replace (h st - r b + r b - h st) with 0 by ring.
      rewrite Rabs_R0. lra.
    - rewrite Rabs_mult, Rabs_Ropp, (Rabs_pos_eq (84 / 100)) by lra.
      exact Hslow. }
  rewrite Hground.
  destruct (groundFriction_R (floorBounce st b))
    as (Hpy & Hvy & Hr & Hstop & Hdamp).
  rewrite Hpy, Hvy, Hr. unfold floorBounce at 1 2 3, RESTITUTION. real_ops.
  cbn [py vy r set_py set_vy].
  repeat split; assumption.
Qed.

(** One step of a lone body lying on the floor. *)
Lemma slide_step (s : R) (b : Ball R) :
  0 < G <= 3500 -> 0 < s <= 1 / 60 -> 2 * r b <= h st ->
  floored G st s b ->
  let b' := collideWalls st (integrate G s b) in
  floored G st s b' /\ r b' = r b /\
  (vx b' = 0 \/ 2 <= Rabs (vx b')) /\
  Rabs (vx b') <= (1 - 8 / 1000) * Rabs (vx b).
Proof.
  intros [HG HGmax] [Hs Hsmax] Hfit (Hpy & Hlo & Hhi) b'.
  destruct (drag_range s Hs) as [Hd0 Hd1].
  pose proof (integrate_spec G s b) as Hint. cbv zeta in Hint.
  fold (dragOf s) in Hint. real_ops.
  set (u := (vy b + G * s) * dragOf s) in *.
  assert (Hgs : 0 < G * s) by (apply Rmult_lt_0_compat; assumption).
  assert (Hgs' : G * s <= 3500 * (1 / 60))
    by (apply Rmult_le_compat; lra).
  assert (Hu : 0 < u) by (unfold u; apply Rmult_lt_0_compat; lra).
  assert (Hule : u <= G * s).
  { unfold u. apply Rle_trans with ((vy b + G * s) * 1); [| lra].
    apply Rmult_le_compat_l; lra. }
  assert (Hus : 0 < u * s) by (apply Rmult_lt_0_compat; assumption).
  set (b0 := integrate G s b) in *.
  assert (H0 : Rabs (vx b0) <= Rabs (vx b) /\ py b0 = h st - r b + u * s /\
               vy b0 = u /\ r b0 = r b).
  { rewrite Hint. cbn [vx py vy r]. rewrite Hpy. repeat split.
    rewrite Rabs_mult, (Rabs_pos_eq (dragOf s)) by lra.
    pose proof (Rabs_pos (vx b)). nra. }
  destruct H0 as (H0vx & H0py & H0vy & H0r).
  destruct (side_walls_frame b0) as [(H1py & H1vy & H1r) _].
  pose proof (wallLeft_speed b0) as H1vx.
  set (b1 := wallLeft b0) in *.
  destruct (side_walls_frame b1) as [_ (H2py & H2vy & H2r)].
  pose proof (wallRight_speed st b1) as H2vx.
  set (b2 := wallRight st b1) in *.
  assert (Htop : wallTop b2 = b2).
  { apply wallTop_idle. rewrite H2py, H1py, H0py, H2r, H1r, H0r. lra. }
  assert (Hfire : h st < py b2 + r b2).
  { rewrite H2py, H1py, H0py, H2r, H1r, H0r. lra. }
  assert (Hslow : Rabs (vy b2) * (84 / 100) < 50).
  { rewrite H2vy, H1vy, H0vy, (Rabs_pos_eq u) by lra. lra. }
  destruct (wallBottom_grounded b2 Hfire Hslow)
    as (H3py & H3vy & H3r & H3stop & H3damp).
  assert (Hb' : b' = wallBottom st b2).
  { unfold b'. rewrite collideWalls_stages. fold b0. fold b1. fold b2.
    rewrite Htop. reflexivity. }
  rewrite Hb'. unfold floored.
  rewrite H3py, H3vy, H3r, H2vy, H1vy, H0vy, H2r, H1r, H0r.
  split; [split; [reflexivity | lra] |].
  split; [reflexivity |]. split; [exact H3stop |]. lra.
Qed.

Lemma slide_steps (dt : R) (b : Ball R) (n : nat) :
  0 < G <= 3500 -> 0 < dt -> 2 * r b <= h st ->
  floored G st (subDtOf dt) b ->
  exists b',
    Nat.iter n (step G st dt) [b] = [b'] /\ r b' = r b /\
    floored G st (subDtOf dt) b' /\
    (n <> 0%nat -> vx b' = 0 \/ 2 <= Rabs (vx b')) /\
    Rabs (vx b') <= (1 - 8 / 1000) ^ n * Rabs (vx b).
Proof.
  intros HG Hdt Hfit Hb.
  assert (Hs : 0 < subDtOf dt <= 1 / 60).
  { split; [apply subDt_pos; exact Hdt |].
    unfold subDtOf, MAX_DT, SUBSTEPS_num, SUBSTEPS. real_ops.
    cbn [Z.of_nat Pos.of_succ_nat]. pose proof (Rmin_l (1 / 60) dt). lra. }
  induction n as [| n (bn & Hrun & Hr & Hg & _ & Hdecay)].
  - exists b. split; [reflexivity |]. split; [reflexivity |].
    split; [exact Hb |]. split; [intros Hn; now elim Hn |].
    cbn [pow]. lra.
  - rewrite Nat.iter_succ, Hrun, step_single.
    destruct (slide_step (subDtOf dt) bn HG Hs) as (Hg' & Hr' & Hstop & Hdamp);
      [rewrite Hr; exact Hfit | exact Hg |].
    eexists. split; [reflexivity |].
    split; [congruence |]. split; [exact Hg' |].
    split; [intros _; exact Hstop |].
    cbn [pow].
    apply Rle_trans with ((1 - 8 / 1000) * Rabs (vx bn)); [exact Hdamp |].
    rewrite Rmult_assoc. apply Rmult_le_compat_l; lra.
Qed.

(** X26. The stop rule ends every slide when the frame time is steady.  A
    body alone in the arena (height at least 2r, gravity 0 < G <= 3500)
    lying on the floor with no vertical velocity and any sideways velocity,
    stepped with one and the same dt > 0 at every step: from some number of
    steps on, after every further [step(dt)] with that dt, its vx is exactly
    0 and it is back on the floor. *)
Theorem sliding_stops (dt : R) (b : Ball R) :
  0 < G <= 3500 -> 0 < dt -> 2 * r b <= h st ->
  vy b = 0 -> py b = h st - r b ->
  exists N : nat,
    forall n : nat, (N <= n)%nat ->
      exists b',
        Nat.iter n (step G st dt) [b] = [b'] /\
        vx b' = 0 /\ py b' = h st - r b.
Proof.
  intros HG Hdt Hfit Hvy Hpy.
  assert (Hb : floored G st (subDtOf dt) b).
  { unfold floored. rewrite Hvy. split; [exact Hpy |].
    assert (0 < G * subDtOf dt)
      by (apply Rmult_lt_0_compat; [lra | apply subDt_pos; exact Hdt]).
    lra. }
  pose proof (Rabs_pos (vx b)) as Hv0.
  assert (Hy : 0 < 2 / (Rabs (vx b) + 1))
    by (apply Rdiv_lt_0_compat; lra).
  destruct (pow_lt_1_zero (1 - 8 / 1000)) with (y := 2 / (Rabs (vx b) + 1))
    as [N0 HN0]; [rewrite Rabs_pos_eq; lra | exact Hy |].
  exists (S N0). intros n Hn.
  destruct (slide_steps dt b n HG Hdt Hfit Hb)
    as (b' & Hrun & Hr & (Hpy' & _) & Hstop & Hdecay).
  exists b'. split; [exact Hrun |].
  split; [| rewrite Hpy', Hr; reflexivity].
  destruct Hstop as [Hzero | Hfast]; [lia | exact Hzero |].
  exfalso.
  assert (Hpow : (1 - 8 / 1000) ^ n < 2 / (Rabs (vx b) + 1)).
  { specialize (HN0 n). rewrite Rabs_pos_eq in HN0.
    - apply HN0. lia.
    - apply pow_le. lra. }
  assert (Hpos : 0 <= (1 - 8 / 1000) ^ n) by (apply pow_le; lra).
  assert (Hlt : (1 - 8 / 1000) ^ n * Rabs (vx b) < 2).
  { apply Rle_lt_trans with ((1 - 8 / 1000) ^ n * (Rabs (vx b) + 1)).
    - apply Rmult_le_compat_l; lra.
    - apply Rmult_lt_reg_r with (r := / (Rabs (vx b) + 1)).
      + apply Rinv_0_lt_compat. lra.
      + rewrite Rmult_assoc, Rinv_r by lra. unfold Rdiv in Hpow. lra. }
  lra.
Qed.

End Sliding.

Section LoneRuns.

Local Open Scope R_scope.

Lemma lone_body_stays_inside_witness :
  2 * r crossingBall <= w arena /\ 2 * r crossingBall <= h arena /\
  exists b',
    fold_left (fun bs dt => step 1600 arena dt bs) [1 / 60; 1 / 30]
              [crossingBall] = [b'] /\
    r b' <= px b' <= w arena - r b' /\ r b' <= py b' <= h arena - r b'.
Proof.
  assert (Hw : 2 * r crossingBall <= w arena) by (cbn; lra).
  assert (Hh : 2 * r crossingBall <= h arena) by (cbn; lra).
  split; [exact Hw |]. split; [exact Hh |].
  apply (lone_body_stays_inside 1600 arena crossingBall [1 / 60; 1 / 30]
           Hw Hh).
  discriminate.
Defined.

Lemma sliding_stops_witness :
  (vx skiddingBall = 300 /\ vy skiddingBall = 0 /\
   py skiddingBall = h arena - r skiddingBall) /\
  exists N : nat,
    forall n : nat, (N <= n)%nat ->
      exists b',
        Nat.iter n (step 1600 arena (1 / 60)) [skiddingBall] = [b'] /\
        vx b' = 0 /\ py b' = h arena - r skiddingBall.
Proof.
  assert (Hvy : vy skiddingBall = 0) by reflexivity.
  assert (Hpy : py skiddingBall = h arena - r skiddingBall) by (cbn; lra).
  split; [split; [reflexivity | split; assumption] |].
  apply (sliding_stops 1600 arena (1 / 60) skiddingBall); try assumption.
  - lra.
  - lra.
  - cbn. lra.
Defined.

End LoneRuns.

(** ** A body at rest, over any run of frames *)

Section RestingRuns.

Local Open Scope R_scope.

Variable G : R.
Variable st : State R.










End RestingRuns.

Section RestingRunsExamples.

Local Open Scope R_scope.






End RestingRunsExamples.
